(** * useDraggable: the binding between a Sortable engine and a reactive list

    A shallow embedding of [useDraggable] (the composition function of
    vue-draggable-plus) and of the JavaScript values it manipulates.
    JavaScript objects live in an explicit heap, reactive [Ref]s in an
    explicit store, and every function that reads or writes them, or that
    may throw, is a computation in a small state-and-exception monad. *)

From stdpp Require Import gmap strings list fin_maps.
From Stdlib Require Import ZArith Lia.

Set Warnings "-register-all".

Open Scope string_scope.
Open Scope list_scope.
Open Scope Z_scope.

(** ** JavaScript values *)

(** The numbers that JSON has no notation for: [NaN] and the infinities,
    which [JSON.stringify] writes as [null], and [-0], which it writes as
    [0]. *)
Inductive special := NaN | PosInfinity | NegInfinity | NegZero.

#[global] Instance special_eq_dec : EqDecision special.
Proof. solve_decision. Defined.

(** Item values.  Objects and arrays are references ([VObj]) into the heap,
    so two values can be deeply equal and still be distinct references.
    [VNum] holds the integer-valued numbers other than [-0], [VSpecial] the
    numbers JSON cannot write. *)
Inductive val :=
  | VUndefined
  | VNull
  | VBool (b : bool)
  | VNum (n : Z)
  | VStr (s : string)
  | VObj (a : nat)
  | VSpecial (k : special).

#[global] Instance val_eq_dec : EqDecision val.
Proof. solve_decision. Defined.

(** A heap cell: an array, or an object with its own enumerable string-keyed
    properties in property order. *)
Inductive hobj :=
  | HArr (elts : list val)
  | HRec (props : list (string * val)).

(** The structure reachable from a value, as a finite tree. *)
Inductive tree :=
  | TUndef
  | TNull
  | TBool (b : bool)
  | TNum (n : Z)
  | TStr (s : string)
  | TArr (ts : list tree)
  | TObj (ps : list (string * tree))
  | TSpecial (k : special).

(** Modelled from the spec: the type predicate "is-undefined" of the utility
    helpers ([isUndefined] of ./utils). *)
Definition isUndefined (v : val) : bool :=
  match v with VUndefined => true | _ => false end.

(** [arr[i]] for an index that is a number or [undefined]: the element at a
    non-negative in-range index, [undefined] otherwise. *)
Definition js_index (arr : list val) (i : option Z) : val :=
  match i with
  | Some z => if decide (0 ≤ z) then default VUndefined (arr !! Z.to_nat z)
              else VUndefined
  | None => VUndefined
  end.

(** ToIntegerOrInfinity on a number-or-undefined argument. *)
Definition to_integer (i : option Z) : Z := default 0 i.

(** [Array.prototype.splice(start, deleteCount, ...items)]: the array after
    the call and the array of removed elements.  A negative [start] counts
    from the end; both arguments are clamped to the array. *)
Definition splice (arr : list val) (start : option Z) (deleteCount : Z)
    (items : list val) : list val * list val :=
  let len := Z.of_nat (length arr) in
  let rel := to_integer start in
  let actualStart := if decide (rel < 0) then Z.max (len + rel) 0
                     else Z.min rel len in
  let actualDelete := Z.min (Z.max deleteCount 0) (len - actualStart) in
  let s := Z.to_nat actualStart in
  let d := Z.to_nat actualDelete in
  (take s arr ++ items ++ drop (s + d) arr, take d (drop s arr)).

(** Modelled from the spec: the array helper "splice by index" that inserts
    one element at an index ([insertElement] of ./utils).  The source array
    is updated in place; the model returns the updated array. *)
Definition insertElement (array : list val) (index : option Z) (element : val)
    : list val :=
  fst (splice array index 0 [element]).

(** Modelled from the spec: the array helper "remove by index"
    ([removeElement] of ./utils). *)
Definition removeElement (array : list val) (index : option Z) : list val :=
  fst (splice array index 1 []).

(** Modelled from the spec: the array helper "move by index"
    ([moveArrayElement] of ./utils): the element is removed from [from] and
    reinserted at [to]. *)
Definition moveArrayElement (array : list val) (from to : option Z)
    : list val :=
  let '(rest, removed) := splice array from 1 [] in
  fst (splice rest to 0 [default VUndefined (head removed)]).

(** ** Reading and building heap structures *)

(** The tree below a value, following references at most [n] levels deep.
    [None] when a reference dangles or the structure is deeper than [n]
    (in particular when it is cyclic). *)
Fixpoint read (n : nat) (h : list hobj) (v : val) : option tree :=
  match v with
  | VUndefined => Some TUndef
  | VNull => Some TNull
  | VBool b => Some (TBool b)
  | VNum z => Some (TNum z)
  | VStr s => Some (TStr s)
  | VSpecial k => Some (TSpecial k)
  | VObj a =>
      match n with
      | O => None
      | S n' =>
          match h !! a with
          | None => None
          | Some (HArr vs) => TArr <$> mapM (read n' h) vs
          | Some (HRec ps) =>
              TObj <$> mapM (λ kv, pair (fst kv) <$> read n' h (snd kv)) ps
          end
      end
  end.

(** What [JSON.stringify] keeps of a tree: inside an array [undefined]
    becomes [null], inside an object a property holding [undefined] is
    dropped; [NaN] and the infinities become [null], [-0] becomes [0]. *)
Fixpoint jsonify (t : tree) : tree :=
  match t with
  | TArr ts =>
      TArr (map (λ t, match t with TUndef => TNull | _ => jsonify t end) ts)
  | TObj ps =>
      TObj (omap (λ kt, match snd kt with
                        | TUndef => None
                        | _ => Some (fst kt, jsonify (snd kt))
                        end) ps)
  | TSpecial NegZero => TNum 0
  | TSpecial _ => TNull
  | _ => t
  end.

(** A tree is a JSON value when it contains no [undefined] and no number
    that JSON cannot write. *)
Fixpoint json_ok (t : tree) : bool :=
  match t with
  | TUndef => false
  | TSpecial _ => false
  | TArr ts => forallb json_ok ts
  | TObj ps => forallb (λ kt, json_ok (snd kt)) ps
  | _ => true
  end.

(** Nesting depth of a tree: the number of references to follow. *)
Fixpoint depth (t : tree) : nat :=
  match t with
  | TArr ts => S (foldr (λ t d, Nat.max (depth t) d) O ts)
  | TObj ps => S (foldr (λ kt d, Nat.max (depth (snd kt)) d) O ps)
  | _ => O
  end.

(** Building a tree in the heap ([JSON.parse]): children first, then the
    cell that holds them, each at a fresh address. *)
Fixpoint alloc (t : tree) (h : list hobj) : val * list hobj :=
  match t with
  | TUndef => (VUndefined, h)
  | TNull => (VNull, h)
  | TBool b => (VBool b, h)
  | TNum z => (VNum z, h)
  | TStr s => (VStr s, h)
  | TSpecial k => (VSpecial k, h)
  | TArr ts =>
      let '(vs, h') :=
        (fix go (ts : list tree) (h : list hobj) : list val * list hobj :=
           match ts with
           | [] => ([], h)
           | t :: ts' =>
               let '(v, h1) := alloc t h in
               let '(vs, h2) := go ts' h1 in
               (v :: vs, h2)
           end) ts h in
      (VObj (length h'), h' ++ [HArr vs])
  | TObj ps =>
      let '(kvs, h') :=
        (fix go (ps : list (string * tree)) (h : list hobj)
           : list (string * val) * list hobj :=
           match ps with
           | [] => ([], h)
           | kt :: ps' =>
               let '(v, h1) := alloc (snd kt) h in
               let '(kvs, h2) := go ps' h1 in
               ((fst kt, v) :: kvs, h2)
           end) ps h in
      (VObj (length h'), h' ++ [HRec kvs])
  end.

(** The two loops of [alloc], on their own. *)
Fixpoint alloc_all (ts : list tree) (h : list hobj)
    : list val * list hobj :=
  match ts with
  | [] => ([], h)
  | t :: ts' =>
      let '(v, h1) := alloc t h in
      let '(vs, h2) := alloc_all ts' h1 in
      (v :: vs, h2)
  end.

Fixpoint alloc_props (ps : list (string * tree)) (h : list hobj)
    : list (string * val) * list hobj :=
  match ps with
  | [] => ([], h)
  | kt :: ps' =>
      let '(v, h1) := alloc (snd kt) h in
      let '(kvs, h2) := alloc_props ps' h1 in
      ((fst kt, v) :: kvs, h2)
  end.

(** ** The world: heap, reactive refs, DOM and the Sortable engine *)

(** The [list] argument of [useDraggable]: a reactive [Ref] to the bound
    array (identified by its cell in the ref store), or, at run time, [null]
    or [undefined]. *)
Inductive listparam :=
  | LNull
  | LUndefined
  | LRef (r : nat).

(** A truthy value that can be passed or configured as the container: an
    [HTMLElement]; a value that is no element, with the element its [$el]
    property holds, if any (a component instance with one root element, or
    with none, or any other object); or a component instance whose [$el] is
    a node that is no element (the text or comment node of a component
    without a single root element). *)
Inductive node :=
  | NElement (e : nat)
  | NComponent (root : option nat)
  | NFragment (root : nat).

(** What [getTarget] returns and the engine's constructor receives: an
    element, or a node that is none. *)
Inductive container :=
  | CElement (e : nat)
  | CNode (n : nat).

(** The value of [unref(el)]: a selector string, a container, or nothing
    ([null] or [undefined]). *)
Inductive elval :=
  | ElString (selector : string)
  | ElNode (n : node)
  | ElEmpty.

(** The four handlers the binding installs ([presetOptions]). *)
Inductive preset := POnUpdate | POnStart | POnAdd | POnRemove.

(** Functions a configuration can hold under an event name: a handler of the
    binding, a function of the caller (identified by a number), or two
    handlers called one after the other. *)
Inductive handler :=
  | HPreset (p : preset)
  | HCaller (f : nat)
  | HSeq (h1 h2 : handler).

(** A value in the caller's options: a function of the caller or data. *)
Inductive optval :=
  | OFun (f : nat)
  | OData (v : val).

(** A value in the configuration handed to the engine. *)
Inductive engopt :=
  | EFun (h : handler)
  | EData (v : val).

Definition to_engopt (o : optval) : engopt :=
  match o with
  | OFun f => EFun (HCaller f)
  | OData v => EData v
  end.

(** A Sortable instance constructed by this binding: the element it is
    attached to ([None] once destroyed), its options, and the [__list]
    property the binding adds to it. *)
Record Sortable := {
  sortable_el : option nat;
  sortable_options : gmap string engopt;
  __list : listparam;
}.

(** What an own property of a DOM element can hold: a Sortable instance of
    this binding, a Sortable instance created elsewhere (with the value of
    its [__list] property, [LUndefined] when it has none), [null], or some
    other value. *)
Inductive propval :=
  | PSortable (id : nat)
  | PForeign (l : listparam)
  | PNull
  | POther.

(** Calls made to the engine, in order. *)
Inductive call :=
  | CNew (id : nat) (target : nat)
  | CDestroy (id : nat)
  | COption (id : nat) (name : string) (value : option engopt)
  | CSave (id : nat)
  | CToArray (id : nat)
  | CClosest (id : nat).

Record SortableEvent := {
  item : nat;
  from : nat;
  oldIndex : option Z;
  newIndex : option Z;
  oldDraggableIndex : option Z;
  newDraggableIndex : option Z;
}.

Record World := {
  heap : list hobj;                          (* JavaScript objects *)
  refs : gmap nat (list val);                (* [Ref<T[]>] cells *)
  document : gmap string nat;                (* [document.querySelector] *)
  props : gmap nat (list (string * propval)); (* own properties of elements *)
  stash : gmap nat val;        (* the [CLONE_ELEMENT_KEY] property of elements *)
  engines : gmap nat Sortable;               (* instances made by [start] *)
  calls : list call;                         (* calls to the engine so far *)
  instance : option nat;                     (* [let instance] *)
  el : elval;                                (* [unref(el)] *)
  options : option (gmap string optval);     (* [unref(options)] *)
}.

Definition set_heap (h : list hobj) (w : World) : World :=
  {| heap := h; refs := refs w; document := document w; props := props w;
     stash := stash w; engines := engines w; calls := calls w;
     instance := instance w; el := el w; options := options w |}.

Definition set_refs (r : gmap nat (list val)) (w : World) : World :=
  {| heap := heap w; refs := r; document := document w; props := props w;
     stash := stash w; engines := engines w; calls := calls w;
     instance := instance w; el := el w; options := options w |}.

Definition set_props (p : gmap nat (list (string * propval))) (w : World)
    : World :=
  {| heap := heap w; refs := refs w; document := document w; props := p;
     stash := stash w; engines := engines w; calls := calls w;
     instance := instance w; el := el w; options := options w |}.

Definition set_stash (s : gmap nat val) (w : World) : World :=
  {| heap := heap w; refs := refs w; document := document w; props := props w;
     stash := s; engines := engines w; calls := calls w;
     instance := instance w; el := el w; options := options w |}.

Definition set_engines (e : gmap nat Sortable) (w : World) : World :=
  {| heap := heap w; refs := refs w; document := document w; props := props w;
     stash := stash w; engines := e; calls := calls w;
     instance := instance w; el := el w; options := options w |}.

Definition set_calls (c : list call) (w : World) : World :=
  {| heap := heap w; refs := refs w; document := document w; props := props w;
     stash := stash w; engines := engines w; calls := c;
     instance := instance w; el := el w; options := options w |}.

Definition set_instance (i : option nat) (w : World) : World :=
  {| heap := heap w; refs := refs w; document := document w; props := props w;
     stash := stash w; engines := engines w; calls := calls w;
     instance := i; el := el w; options := options w |}.

(** ** Computations that change the world or throw *)

Inductive JsError :=
  | TypeError                  (* e.g. reading a property of [undefined] *)
  | SyntaxError                (* [document.querySelector] on an invalid selector *)
  | NotAnElement               (* thrown by [new Sortable] for a non-element *)
  | SerializationError         (* [JSON.stringify] on a cyclic or too deep value *)
  | Error (message : string)   (* [new Error(message)] *)
  | Raised (code : nat).       (* anything thrown by the caller's functions *)

(** A call either returns a value or throws; either way it leaves a world
    behind. *)
Inductive Result (A : Type) :=
  | Ok (a : A) (w : World)
  | Throw (e : JsError) (w : World).

Arguments Ok {A} a w.
Arguments Throw {A} e w.

Definition M (A : Type) : Type := World → Result A.

Definition ret {A} (a : A) : M A := λ w, Ok a w.

Definition throw {A} (e : JsError) : M A := λ w, Throw e w.

Definition bind {A B} (m : M A) (k : A → M B) : M B :=
  λ w, match m w with
       | Ok a w' => k a w'
       | Throw e w' => Throw e w'
       end.

Definition reads {A} (f : World → A) : M A := λ w, Ok (f w) w.

Definition modify (f : World → World) : M unit := λ w, Ok tt (f w).

Notation "x <~ m ;; k" := (bind m (λ x, k))
  (at level 100, m at next level, right associativity).
Notation "m ;;; k" := (bind m (λ _, k))
  (at level 100, right associativity).

(** Modelled from the spec: the "event-handler double-invocation merge"
    ([mergeOptionsEvents] of ./utils), a shallow merge of two configurations
    in which, for a name both sides give a handler for, the resulting handler
    calls the first side's handler and then the second side's.  A handler of
    the first side is never replaced: where the second side gives a value
    that is no function, the first side's handler stays alone.  Every other
    key passes through unchanged (the second side's value when both sides
    have the key). *)
Definition mergeOptionsEvents (options events : gmap string engopt)
    : gmap string engopt :=
  union_with (λ o e, Some match o, e with
                          | EFun h, EFun h' => EFun (HSeq h h')
                          | EFun h, EData _ => EFun h
                          | EData _, _ => e
                          end) options events.

(** Modelled from the spec: the type predicate "is-string" ([isString] of
    ./utils). *)
Definition isString (e : elval) : bool :=
  match e with ElString _ => true | _ => false end.

(** Modelled from the spec: the type predicate "is-DOM-element"
    ([isHTMLElement] of ./utils). *)
Definition isHTMLElement (n : node) : bool :=
  match n with NElement _ => true | _ => false end.

(** Truthiness of a value. *)
Definition truthy (v : val) : bool :=
  match v with
  | VUndefined | VNull | VBool false | VNum 0 | VStr "" => false
  | VSpecial NaN | VSpecial NegZero => false
  | _ => true
  end.

Definition truthy_opt (o : optval) : bool :=
  match o with OFun _ => true | OData v => truthy v end.

(** With recursion limit [n], a value is representable in the serialization
    format when the structure below it is finite, at most [n] levels deep,
    and free of [undefined]. *)
Definition representable_at (n : nat) (w : World) (x : val) : Prop :=
  ∃ t, read n (heap w) x = Some t ∧ json_ok t = true.

(** The engines of this binding that are attached to an element. *)
Definition live (w : World) : gset nat :=
  dom (filter (λ kv, is_Some (sortable_el (snd kv))) (engines w)).

(** The instances the binding holds: at most the one in [instance]. *)
Definition held (w : World) : gset nat :=
  match instance w with Some id => {[ id ]} | None => ∅ end.

(** Every live engine of the binding is the one it holds. *)
Definition one_engine (w : World) : Prop := live w = held w.

(** The world a call leaves behind, whether it returned or threw. *)
Definition world_after {A} (r : Result A) : World :=
  match r with Ok _ w => w | Throw _ w => w end.

(** The values a heap cell holds. *)
Definition cell_vals (c : hobj) : list val :=
  match c with
  | HArr vs => vs
  | HRec ps => snd <$> ps
  end.

(** A value that is no reference to a cell below address [n]. *)
Definition fresh_from (n : nat) (v : val) : Prop :=
  match v with VObj a => (n ≤ a)%nat | _ => True end.

(** The cell at [a] holds a reference to itself. *)
Definition self_containing (h : list hobj) (a : nat) : Prop :=
  ∃ c, h !! a = Some c ∧ VObj a ∈ cell_vals c.

(** A call that returns and leaves the held instance, the live engines and
    the data as they were. *)
Definition quiet {A} (m : M A) (w : World) : Prop :=
  ∃ r w', m w = Ok r w'
          ∧ instance w' = instance w
          ∧ live w' = live w
          ∧ refs w' = refs w
          ∧ heap w' = heap w.

(** Every value of the cell is fresh from [n]. *)
Definition cell_fresh (n : nat) (c : hobj) : Prop :=
  Forall (fresh_from n) (cell_vals c).

(** ** A page of the documentation

    The function demo of the documentation binds a list of four people to a
    container element and passes [onStart] and [onUpdate] handlers that only
    write to the console. *)

Definition people : list hobj :=
  [ HRec [("name", VStr "Joao"); ("id", VNum 1)];
    HRec [("name", VStr "Jean"); ("id", VNum 2)];
    HRec [("name", VStr "Johanna"); ("id", VNum 3)];
    HRec [("name", VStr "Juan"); ("id", VNum 4)] ].

Definition demo_options : gmap string optval :=
  <["animation" := OData (VNum 150)]>
  (<["ghostClass" := OData (VStr "ghost")]>
  (<["onStart" := OFun 0]>
  (<["onUpdate" := OFun 1]> ∅))).

Definition demo : World :=
  {| heap := people;
     refs := {[ 0%nat := [VObj 0; VObj 1; VObj 2; VObj 3] ]};
     document := ∅;
     props := ∅;
     stash := ∅;
     engines := ∅;
     calls := [];
     instance := None;
     el := ElNode (NElement 10);
     options := Some demo_options |}.

(** The page before its container is rendered: the element ref is empty. *)
Definition demo_unmounted : World :=
  {| heap := people;
     refs := {[ 0%nat := [VObj 0; VObj 1; VObj 2; VObj 3] ]};
     document := ∅;
     props := ∅;
     stash := ∅;
     engines := ∅;
     calls := [];
     instance := None;
     el := ElEmpty;
     options := Some demo_options |}.

Definition demo_stamp : string := "1700000000000".

(** The configuration the engine gets on that page. *)
Definition demo_merged : gmap string engopt :=
  <["onStart" := EFun (HSeq (HPreset POnStart) (HCaller 0))]>
  (<["onUpdate" := EFun (HSeq (HPreset POnUpdate) (HCaller 1))]>
  (<["onAdd" := EFun (HPreset POnAdd)]>
  (<["onRemove" := EFun (HPreset POnRemove)]>
  (<["ghostClass" := EData (VStr "ghost")]>
  (<["animation" := EData (VNum 150)]> ∅))))).

(** The page once mounted: [start()] has run. *)
Definition demo_started : World :=
  {| heap := people;
     refs := {[ 0%nat := [VObj 0; VObj 1; VObj 2; VObj 3] ]};
     document := ∅;
     props := {[ 10%nat := [("Sortable1700000000000", PSortable 0)] ]};
     stash := ∅;
     engines := {[ 0%nat := {| sortable_el := Some 10%nat;
                               sortable_options := demo_merged;
                               __list := LRef 0 |} ]};
     calls := [CNew 0 10];
     instance := Some 0%nat;
     el := ElNode (NElement 10);
     options := Some demo_options |}.

(** Options with a custom update handler. *)
Definition custom_options : gmap string optval :=
  <["animation" := OData (VNum 150)]> (<["customUpdate" := OFun 2]> ∅).

(** An item of container [source] dropped into the bound container. *)
Definition drop_in (source : nat) (old new : Z) : SortableEvent :=
  {| item := 20; from := source;
     oldIndex := Some old; newIndex := Some new;
     oldDraggableIndex := Some old; newDraggableIndex := Some new |}.

(** Two lists: the bound list [X,Y] in ref [0], and a list [A,B,C] in ref
    [1] bound by another call of [useDraggable] to container [11]. *)
Definition two_lists : World :=
  {| heap := [];
     refs := <[0%nat := [VStr "X"; VStr "Y"]]>
             (<[1%nat := [VStr "A"; VStr "B"; VStr "C"]]> ∅);
     document := ∅;
     props := {[ 11%nat := [("Sortable1700000000000", PForeign (LRef 1))] ]};
     stash := ∅;
     engines := ∅;
     calls := [];
     instance := None;
     el := ElNode (NElement 10);
     options := None |}.

(** The started page next to a container [11] on which Sortable was set up
    directly: its instance has no [__list]. *)
Definition demo_beside_plain_sortable : World :=
  {| heap := people;
     refs := {[ 0%nat := [VObj 0; VObj 1; VObj 2; VObj 3] ]};
     document := ∅;
     props := <[10%nat := [("Sortable1700000000000", PSortable 0)]]>
              (<[11%nat := [("Sortable1700000000000", PForeign LUndefined)]]> ∅);
     stash := ∅;
     engines := {[ 0%nat := {| sortable_el := Some 10%nat;
                               sortable_options := demo_merged;
                               __list := LRef 0 |} ]};
     calls := [CNew 0 10];
     instance := Some 0%nat;
     el := ElNode (NElement 10);
     options := Some demo_options |}.

(** On the page every non-empty string counts as a selector. *)
Definition demo_css (s : string) : bool := true.

(** The page with the empty string given as [el]. *)
Definition demo_empty_selector : World :=
  {| heap := people;
     refs := {[ 0%nat := [VObj 0; VObj 1; VObj 2; VObj 3] ]};
     document := ∅;
     props := ∅;
     stash := ∅;
     engines := ∅;
     calls := [];
     instance := None;
     el := ElString "";
     options := Some demo_options |}.

(** A binding next to a container [11] on which Sortable was set up
    directly, with an [onAdd] handler of the caller in the options. *)
Definition demo_with_onAdd : World :=
  {| heap := people;
     refs := {[ 0%nat := [VObj 0; VObj 1; VObj 2; VObj 3] ]};
     document := ∅;
     props := {[ 11%nat := [("Sortable1700000000000", PForeign LUndefined)] ]};
     stash := ∅;
     engines := ∅;
     calls := [];
     instance := None;
     el := ElNode (NElement 10);
     options := Some (<["onAdd" := OFun 3]> ∅) |}.

(** A handler of the caller that leaves a mark when it is called: it sets
    the stash of node [99] to its own number. *)
Definition marking_handler (f : nat) (evt : SortableEvent) : M unit :=
  modify (λ w, set_stash (<[99%nat := VNum (Z.of_nat f)]> (stash w)) w).

(** [console.log(...)] leaves the world as it is. *)
Definition demo_handler (f : nat) (evt : SortableEvent) : M unit := ret tt.

Definition demo_clone (f : nat) (element : val) : M val := ret element.

Definition demo_toArray (id : nat) (w : World) : list string := [].

Definition demo_closest (id e : nat) (selector : option string) (w : World)
    : option nat := None.

(** A drag of the item at [old] to [new], inside container [10]. *)
Definition drag (old new : Z) : SortableEvent :=
  {| item := 20; from := 10;
     oldIndex := Some old; newIndex := Some new;
     oldDraggableIndex := Some old; newDraggableIndex := Some new |}.

(** An item that holds a reference to itself, in the bound list. *)
Definition looped : World :=
  {| heap := [HRec [("name", VStr "Ouroboros"); ("self", VObj 0)]];
     refs := {[ 0%nat := [VObj 0] ]};
     document := ∅;
     props := ∅;
     stash := ∅;
     engines := ∅;
     calls := [];
     instance := None;
     el := ElNode (NElement 10);
     options := None |}.

(** Items with holes: a property and an array element that are
    [undefined]. *)
Definition sparse : World :=
  {| heap := [HArr [VNum 1; VUndefined];
              HRec [("name", VStr "Joao"); ("nick", VUndefined);
                    ("tags", VObj 0)]];
     refs := {[ 0%nat := [VObj 1] ]};
     document := ∅;
     props := ∅;
     stash := ∅;
     engines := ∅;
     calls := [];
     instance := None;
     el := ElNode (NElement 10);
     options := None |}.

(** A container that also has a property of its own whose name starts with
    "Sortable", set before Sortable was. *)
Definition shadowed : World :=
  {| heap := [];
     refs := <[0%nat := [VStr "X"; VStr "Y"]]>
             (<[1%nat := [VStr "A"; VStr "B"; VStr "C"]]> ∅);
     document := ∅;
     props := {[ 11%nat := [("id", POther); ("SortableGroup", POther);
                            ("Sortable1700000000000", PForeign (LRef 1))] ]};
     stash := ∅;
     engines := ∅;
     calls := [];
     instance := None;
     el := ElNode (NElement 10);
     options := None |}.

(** Options that switch the automatic start off. *)
Definition manual_options : gmap string optval :=
  <["immediate" := OData (VBool false)]> (<["animation" := OData (VNum 150)]> ∅).

(** The structure below the only item of [sparse]. *)
Definition sparse_tree : tree :=
  TObj [("name", TStr "Joao"); ("nick", TUndef);
        ("tags", TArr [TNum 1; TUndef])].

Section useDraggable.

(** The engine's recursion limit for [JSON.stringify]. *)
Variable stack_limit : nat.

(** The property key under which a Sortable instance installs itself on its
    element is ["Sortable"] followed by a time stamp. *)
Variable expando_stamp : string.

(** Which non-empty strings are selectors, by the grammar of CSS. *)
Variable css_selector : string → bool.

(** The caller's functions, called as event handlers and as clone
    functions. *)
Variable caller_handler : nat → SortableEvent → M unit.
Variable caller_clone : nat → val → M val.

(** What the engine answers to [toArray()] and [closest(el, selector)]. *)
Variable engine_toArray : nat → World → list string.
Variable engine_closest : nat → nat → option string → World → option nat.

(** The arguments of [useDraggable] that are fixed at the call: [list] (here [listRef]), and
    the value of [unref(options) || {}] at that time, from which [clone] and
    [customUpdate] are taken once. *)
Variable listRef : listparam.
Variable optionsUnref : gmap string optval.

Definition expando : string := "Sortable" +:+ expando_stamp.

(** *** JSON *)

(** [JSON.stringify(v)] for a value other than [undefined]; the JSON text is
    represented by the tree it denotes. *)
Definition JSON_stringify (v : val) : M tree :=
  λ w, match read stack_limit (heap w) v with
       | Some t => Ok (jsonify t) w
       | None => Throw SerializationError w
       end.

(** [JSON.parse(text)]: builds a fresh structure. *)
Definition JSON_parse (text : tree) : M val :=
  λ w, let '(v, h) := alloc text (heap w) in Ok v (set_heap h w).

Definition defaultClone (element : val) : M val :=
  match element with
  | VUndefined | VNull => ret element
  | _ => text <~ JSON_stringify element ;; JSON_parse text
  end.

(** [clone = defaultClone] unless the options give one. *)
Definition clone (element : val) : M val :=
  match optionsUnref !! "clone" with
  | None | Some (OData VUndefined) => defaultClone element
  | Some (OFun f) => caller_clone f element
  | Some (OData _) => throw TypeError
  end.

Definition customUpdate : option optval := optionsUnref !! "customUpdate".

(** Representable under the engine's limit. *)
Definition representable (w : World) (x : val) : Prop :=
  representable_at stack_limit w x.

(** Two values are deeply equal when the same structure lies below both. *)
Definition deep_equal (w : World) (x y : val) : Prop :=
  ∃ t, read stack_limit (heap w) x = Some t
       ∧ read stack_limit (heap w) y = Some t.

(** [y] in [w'] has below it the structure that [x] has in [w]: deep
    equality of two values, each taken in its own world. *)
Definition same_structure (w : World) (x : val) (w' : World) (y : val)
    : Prop :=
  ∃ t, read stack_limit (heap w) x = Some t
       ∧ read stack_limit (heap w') y = Some t.

(** *** Reactive refs *)

(** [l.value]: throws a [TypeError] when [l] is [null] or [undefined]. *)
Definition ref_value (l : listparam) : M (list val) :=
  match l with
  | LRef r => reads (λ w, default [] (refs w !! r))
  | _ => throw TypeError
  end.

(** [l.value = v]. *)
Definition set_ref_value (l : listparam) (v : list val) : M unit :=
  match l with
  | LRef r => modify (λ w, set_refs (<[r := v]> (refs w)) w)
  | _ => throw TypeError
  end.

(** *** Event translation *)

Definition onStart (evt : SortableEvent) : M unit :=
  (* unref(list)?.[evt.oldIndex!] *)
  element <~ match listRef with
             | LRef r => arr <~ ref_value listRef ;; ret (js_index arr (oldIndex evt))
             | _ => ret VUndefined
             end ;;
  cloned <~ clone element ;;
  modify (λ w, set_stash (<[item evt := cloned]> (stash w)) w).

(** [Object.keys(el).find(key => key.startsWith('Sortable'))], then
    [el[key]?.__list]. *)
Definition getListFromEl (el : nat) (w : World) : listparam :=
  match find (λ kv, String.prefix "Sortable" (fst kv))
             (default [] (props w !! el)) with
  | None => LUndefined
  | Some (_, PSortable id) =>
      match engines w !! id with
      | Some s => __list s
      | None => LUndefined
      end
  | Some (_, PForeign l) => l
  | Some (_, PNull) | Some (_, POther) => LUndefined
  end.

Definition onAdd (evt : SortableEvent) : M unit :=
  fromList <~ reads (getListFromEl (from evt)) ;;
  fromValue <~ ref_value fromList ;;
  let item := js_index fromValue (oldIndex evt) in
  if isUndefined item then ret tt
  else
    newList <~ ref_value listRef ;;
    let newList := insertElement newList (newDraggableIndex evt) item in
    set_ref_value listRef newList.

Definition onRemove (evt : SortableEvent) : M unit :=
  newList <~ ref_value listRef ;;
  let newList := removeElement newList (oldDraggableIndex evt) in
  set_ref_value listRef newList.

(** [f(evt)] for a value [f] of the options: a [TypeError] when [f] is not
    a function. *)
Definition call_option (f : optval) (evt : SortableEvent) : M unit :=
  match f with
  | OFun f => caller_handler f evt
  | OData _ => throw TypeError
  end.

(** [if (customUpdate)]. *)
Definition customUpdate_set : bool :=
  match customUpdate with
  | Some f => truthy_opt f
  | None => false
  end.

Definition onUpdate (evt : SortableEvent) : M unit :=
  if customUpdate_set then
    match customUpdate with
    | Some f => call_option f evt
    | None => ret tt
    end
  else
    newList <~ ref_value listRef ;;
    set_ref_value listRef
      (moveArrayElement newList (oldDraggableIndex evt)
         (newDraggableIndex evt)).

(** The option name each handler of the binding is installed under. *)
Definition preset_name (p : preset) : string :=
  match p with
  | POnUpdate => "onUpdate"
  | POnStart => "onStart"
  | POnAdd => "onAdd"
  | POnRemove => "onRemove"
  end.

Definition presetOptions : gmap string engopt :=
  <["onUpdate" := EFun (HPreset POnUpdate)]>
  (<["onStart" := EFun (HPreset POnStart)]>
  (<["onAdd" := EFun (HPreset POnAdd)]>
  (<["onRemove" := EFun (HPreset POnRemove)]> ∅))).

(** Calling a handler with an event. *)
Fixpoint run (h : handler) (evt : SortableEvent) : M unit :=
  match h with
  | HPreset POnUpdate => onUpdate evt
  | HPreset POnStart => onStart evt
  | HPreset POnAdd => onAdd evt
  | HPreset POnRemove => onRemove evt
  | HCaller f => caller_handler f evt
  | HSeq h1 h2 => run h1 evt ;;; run h2 evt
  end.

(** [presetOptions], by name: the function of the binding installed under
    each of its four option names. *)
Definition preset_handler (p : preset) : SortableEvent → M unit :=
  match p with
  | POnUpdate => onUpdate
  | POnStart => onStart
  | POnAdd => onAdd
  | POnRemove => onRemove
  end.

(** The functions a handler calls, in call order. *)
Fixpoint invoked (h : handler) : list handler :=
  match h with
  | HSeq h1 h2 => invoked h1 ++ invoked h2
  | _ => [h]
  end.

(** *** Lifecycle *)

(** The empty string is no selector. *)
Definition valid_selector (s : string) : bool :=
  match s with
  | "" => false
  | _ => css_selector s
  end.

(** [document.querySelector(s)]: the first matching element or [null]; a
    [SyntaxError] when [s] is no selector. *)
Definition querySelector (s : string) : M (option nat) :=
  if valid_selector s then reads (λ w, document w !! s)
  else throw SyntaxError.

Definition getTarget (target : option node) : M container :=
  element <~ reads el ;;
  finalTarget <~
    match target with
    | Some t => ret (Some t)
    | None =>
        if isString element then
          match element with
          | ElString s => found <~ querySelector s ;; ret (NElement <$> found)
          | _ => ret None
          end
        else ret match element with ElNode n => Some n | _ => None end
    end ;;
  let finalTarget :=
    match finalTarget with
    | Some n => if isHTMLElement n
                then match n with
                     | NElement e => Some (CElement e)
                     | _ => None
                     end
                else match n with
                     | NElement e => Some (CElement e)
                     | NComponent root => CElement <$> root
                     | NFragment root => Some (CNode root)
                     end
    | None => None
    end in
  match finalTarget with
  | Some c => ret c
  | None => throw (Error "Root element not found")
  end.

Definition mergeOptions (w : World) : gmap string engopt :=
  let restOptions := delete "immediate" (delete "clone" (default ∅ (options w))) in
  mergeOptionsEvents
    (match listRef with LNull => ∅ | _ => presetOptions end)
    (to_engopt <$> restOptions).

(** *** The engine, at its interface *)

(** [el[key] = v] on the own properties of an element. *)
Fixpoint set_prop (key : string) (v : propval)
    (ps : list (string * propval)) : list (string * propval) :=
  match ps with
  | [] => [(key, v)]
  | kx :: ps' =>
      if decide (fst kx = key) then (key, v) :: ps'
      else kx :: set_prop key v ps'
  end.

Definition write_prop (e : nat) (key : string) (v : propval) (w : World)
    : World :=
  set_props (<[e := set_prop key v (default [] (props w !! e))]> (props w)) w.

Definition log (c : call) (w : World) : World :=
  set_calls (calls w ++ [c]) w.

(** [new Sortable(target, opts)]: a new instance, which installs itself on
    its element under the expando key.  The constructor throws when its
    first argument is no element. *)
Definition Sortable_new (target : container) (opts : gmap string engopt)
    : M nat :=
  match target with
  | CNode _ => throw NotAnElement
  | CElement target =>
      λ w, let id := fresh (dom (engines w)) in
           let s := {| sortable_el := Some target; sortable_options := opts;
                       __list := LUndefined |} in
           Ok id (log (CNew id target)
                    (write_prop target expando (PSortable id)
                       (set_engines (<[id := s]> (engines w)) w)))
  end.

(** [sortable.destroy()]: detaches the instance from its element and clears
    the expando property. *)
Definition Sortable_destroy (id : nat) : M unit :=
  λ w, match engines w !! id with
       | Some s =>
           let s' := {| sortable_el := None;
                        sortable_options := sortable_options s;
                        __list := __list s |} in
           let w' := set_engines (<[id := s']> (engines w)) w in
           Ok tt (log (CDestroy id)
                    match sortable_el s with
                    | Some e => write_prop e expando PNull w'
                    | None => w'
                    end)
       | None => Ok tt (log (CDestroy id) w)
       end.

(** [sortable.option(name, value)]: reads the option when [value] is
    [undefined], sets it otherwise. *)
Definition Sortable_option (id : nat) (name : string) (value : option engopt)
    : M (option engopt) :=
  λ w, let w' := log (COption id name value) w in
       match value with
       | None | Some (EData VUndefined) =>
           Ok (s ← engines w !! id; sortable_options s !! name) w'
       | Some v =>
           let upd s := {| sortable_el := sortable_el s;
                           sortable_options := <[name := v]> (sortable_options s);
                           __list := __list s |} in
           Ok None (set_engines (alter upd id (engines w)) w')
       end.

(** [(instance as any).__list = l]. *)
Definition set___list (id : nat) (l : listparam) : M unit :=
  modify (λ w,
    let upd s := {| sortable_el := sortable_el s;
                    sortable_options := sortable_options s;
                    __list := l |} in
    set_engines (alter upd id (engines w)) w).

(** *** The methods returned by [useDraggable] *)

Definition methods_option (name : string) (value : option optval)
    : M (option engopt) :=
  inst <~ reads instance ;;
  match inst with
  | Some id => Sortable_option id name (to_engopt <$> value)
  | None => ret None
  end.

Definition methods_destroy : M unit :=
  inst <~ reads instance ;;
  match inst with
  | Some id => Sortable_destroy id
  | None => ret tt
  end ;;;
  modify (set_instance None).

(** [save()] returns [undefined] whether or not there is an instance. *)
Definition methods_save : M unit :=
  inst <~ reads instance ;;
  match inst with
  | Some id => modify (log (CSave id))
  | None => ret tt
  end.

(** [toArray()]: [None] stands for [undefined]. *)
Definition methods_toArray : M (option (list string)) :=
  inst <~ reads instance ;;
  match inst with
  | Some id => order <~ reads (engine_toArray id) ;;
               modify (log (CToArray id)) ;;; ret (Some order)
  | None => ret None
  end.

(** [closest(el, selector)]: [None] stands for [undefined], [Some None] for
    [null]. *)
Definition methods_closest (e : nat) (selector : option string)
    : M (option (option nat)) :=
  inst <~ reads instance ;;
  match inst with
  | Some id => found <~ reads (engine_closest id e selector) ;;
               modify (log (CClosest id)) ;;; ret (Some found)
  | None => ret None
  end.

Definition pause : M (option engopt) :=
  methods_option "disabled" (Some (OData (VBool true))).

Definition resume : M (option engopt) :=
  methods_option "disabled" (Some (OData (VBool false))).

Definition start (target : option node) : M unit :=
  target <~ getTarget target ;;
  inst <~ reads instance ;;
  match inst with
  | Some _ => methods_destroy
  | None => ret tt
  end ;;;
  opts <~ reads mergeOptions ;;
  id <~ Sortable_new target opts ;;
  modify (set_instance (Some id)) ;;;
  set___list id listRef.

(** [immediate = true] unless the options say otherwise. *)
Definition immediate : bool :=
  match optionsUnref !! "immediate" with
  | None | Some (OData VUndefined) => true
  | Some o => truthy_opt o
  end.

(** The callbacks registered with [tryOnMounted] and [tryOnUnmounted]. *)
Definition onMounted : M unit :=
  if immediate then start None else ret tt.

Definition onUnmounted : M unit := methods_destroy.

(** The engine firing the event [name] of the held instance: it calls the
    handler its configuration has under that name, if any. *)
Definition fire (name : string) (evt : SortableEvent) : M unit :=
  inst <~ reads instance ;;
  match inst with
  | Some id =>
      λ w, match s ← engines w !! id; sortable_options s !! name with
           | Some (EFun h) => run h evt w
           | _ => Ok tt w
           end
  | None => ret tt
  end.

(** [w'] is [w], or [w] with a new value in the bound list. *)
Definition only_bound_list (w w' : World) : Prop :=
  w' = w ∨ ∃ d l, listRef = LRef d ∧ w' = set_refs (<[d := l]> (refs w)) w.

(** ** Properties *)

Ltac unfold_m := unfold bind, ret, reads, modify, throw in *.

(** *** Passthrough methods and destroy *)

(** C8: without an instance, [save], [toArray], [closest], [option],
    [pause] and [resume] return [undefined] (here [tt] or [None]), do not
    throw and leave the world as it is. *)
Theorem passthrough_without_instance (w : World) (name : string)
    (value : option optval) (e : nat) (selector : option string) :
  instance w = None →
  methods_save w = Ok tt w
  ∧ methods_toArray w = Ok None w
  ∧ methods_closest e selector w = Ok None w
  ∧ methods_option name value w = Ok None w
  ∧ pause w = Ok None w
  ∧ resume w = Ok None w.
Proof.
  intros Hnone.
  unfold methods_save, methods_toArray, methods_closest, pause, resume,
    methods_option.
  unfold_m. rewrite Hnone. repeat split.
Qed.

Lemma set_instance_None_id (w : World) :
  instance w = None → set_instance None w = w.
Proof. destruct w; simpl; intros ->; reflexivity. Qed.

Lemma methods_destroy_returns (w : World) :
  ∃ w', methods_destroy w = Ok tt w' ∧ instance w' = None.
Proof.
  unfold methods_destroy, Sortable_destroy. unfold_m.
  destruct (instance w) as [id|]; [destruct (engines w !! id)|];
    eexists; split; reflexivity.
Qed.

Lemma methods_destroy_absent (w : World) :
  instance w = None → methods_destroy w = Ok tt w.
Proof.
  intros Hnone. unfold methods_destroy. unfold_m. rewrite Hnone.
  by rewrite set_instance_None_id.
Qed.

(** C9: [destroy()] never throws and leaves no instance; a second
    [destroy()] right after it changes nothing, so calling it twice is the
    same as calling it once. *)
Theorem destroy_idempotent (w : World) :
  ∃ w', methods_destroy w = Ok tt w'
        ∧ instance w' = None
        ∧ methods_destroy w' = Ok tt w'
        ∧ (methods_destroy ;;; methods_destroy) w = methods_destroy w.
Proof.
  destruct (methods_destroy_returns w) as (w' & Hd & Hnone).
  exists w'. repeat split; try done.
  - by apply methods_destroy_absent.
  - unfold bind at 1. rewrite Hd. by apply methods_destroy_absent.
Qed.

(** *** Resolving the container *)

(** C5: with no target argument, when the element reference is empty, or
    when [el] is a valid selector that matches no element, [start()] throws
    the error "Root element not found" at once: nothing was destroyed or
    constructed and the world is as before. *)
Theorem start_without_target (w : World) :
  el w = ElEmpty
  ∨ (∃ s, el w = ElString s ∧ valid_selector s = true
          ∧ document w !! s = None) →
  getTarget None w = Throw (Error "Root element not found") w
  ∧ start None w = Throw (Error "Root element not found") w.
Proof.
  intros Hel.
  assert (getTarget None w = Throw (Error "Root element not found") w) as Hg.
  { unfold getTarget, querySelector. unfold_m.
    destruct Hel as [-> | (s & -> & Hv & Hs)]; simpl; [done|].
    rewrite Hv. by rewrite Hs. }
  split; [done|]. unfold start. unfold bind at 1. by rewrite Hg.
Qed.

(** With no target argument and an [el] that is a string but no selector,
    the [SyntaxError] of [document.querySelector] leaves [start()], and the
    world is as before. *)
Lemma start_invalid_selector (s : string) (w : World) :
  el w = ElString s →
  valid_selector s = false →
  getTarget None w = Throw SyntaxError w
  ∧ start None w = Throw SyntaxError w.
Proof.
  intros Hel Hv.
  assert (getTarget None w = Throw SyntaxError w) as Hg.
  { unfold getTarget, querySelector. unfold_m. rewrite Hel. simpl.
    by rewrite Hv. }
  split; [done|]. unfold start. unfold bind at 1. by rewrite Hg.
Qed.

(** *** Event translation *)

(** C7: with a custom update handler configured, a reorder event is handed
    to that handler and nothing else happens: the outcome of [onUpdate] is
    the outcome of the handler, so the collection is changed by the handler
    if at all. *)
Theorem onUpdate_custom (f : nat) (evt : SortableEvent) (w : World) :
  customUpdate = Some (OFun f) →
  onUpdate evt w = caller_handler f evt w
  ∧ (∀ w', caller_handler f evt w = Ok tt w' → refs w' = refs w →
           ∃ w'', onUpdate evt w = Ok tt w'' ∧ refs w'' = refs w).
Proof.
  intros Hc.
  assert (onUpdate evt w = caller_handler f evt w) as Heq.
  { unfold onUpdate, customUpdate_set. by rewrite Hc. }
  split; [done|]. intros w' Hw' Hrefs. exists w'. by rewrite Heq.
Qed.

Lemma defaultClone_undefined (w : World) :
  defaultClone VUndefined w = Ok VUndefined w.
Proof. reflexivity. Qed.

(** C10: with the default clone function, a drag-start event whose old
    index has no item in the bound collection stores [undefined] on the
    dragged node, throws nothing, and leaves the collection (and everything
    but the node's stash) as it was. *)
Theorem onStart_missing_item (evt : SortableEvent) (w : World) (r : nat) :
  listRef = LRef r →
  optionsUnref !! "clone" = None →
  js_index (default [] (refs w !! r)) (oldIndex evt) = VUndefined →
  onStart evt w = Ok tt (set_stash (<[item evt := VUndefined]> (stash w)) w)
  ∧ stash (set_stash (<[item evt := VUndefined]> (stash w)) w) !! item evt
    = Some VUndefined
  ∧ refs (set_stash (<[item evt := VUndefined]> (stash w)) w) = refs w.
Proof.
  intros Hl Hc Hi. split; [|split].
  - unfold onStart, clone. rewrite Hl, Hc. simpl. unfold_m. simpl.
    by rewrite Hi.
  - simpl. by rewrite lookup_insert_eq.
  - reflexivity.
Qed.

(** *** One engine per binding *)

Lemma elem_of_live (w : World) (id : nat) :
  id ∈ live w ↔ ∃ s e, engines w !! id = Some s ∧ sortable_el s = Some e.
Proof.
  unfold live. rewrite elem_of_dom. split.
  - intros [s Hs]. apply map_lookup_filter_Some in Hs as [Hs [e He]].
    simpl in He. eauto.
  - intros (s & e & Hs & He). exists s. apply map_lookup_filter_Some.
    split; [done|]. simpl. rewrite He. eauto.
Qed.

(** Destroying the held instance leaves no live engine. *)
Lemma methods_destroy_spec (w : World) :
  one_engine w →
  ∃ w', methods_destroy w = Ok tt w'
        ∧ instance w' = None
        ∧ live w' = ∅
        ∧ dom (engines w') = dom (engines w)
        ∧ calls w' = calls w ++ match instance w with
                                 | Some old => [CDestroy old]
                                 | None => []
                                 end.
Proof.
  unfold one_engine, held. intros Hone.
  unfold methods_destroy, Sortable_destroy. unfold_m.
  destruct (instance w) as [old|] eqn:Hinst.
  - assert (old ∈ live w) as Hold by (rewrite Hone; set_solver).
    apply elem_of_live in Hold as (s & e & Hs & He).
    rewrite Hs, He. eexists. split; [reflexivity|]. simpl.
    repeat split.
    + apply set_eq. intros id. rewrite elem_of_live. simpl.
      split; [|set_solver]. intros (s' & e' & Hs' & He').
      destruct (decide (id = old)) as [->|Hne].
      * rewrite lookup_insert_eq in Hs'. by simplify_eq.
      * rewrite lookup_insert_ne in Hs' by done.
        assert (id ∈ live w) as Hid by (apply elem_of_live; eauto).
        rewrite Hone in Hid. set_solver.
    + rewrite dom_insert_L. apply subseteq_union_1_L, singleton_subseteq_l.
      by apply elem_of_dom_2 in Hs.
  - eexists. split; [reflexivity|]. simpl. repeat split; try done.
    by rewrite app_nil_r.
Qed.

(** Constructing an engine adds exactly that engine to the live ones. *)
Lemma Sortable_new_spec (t : nat) (opts : gmap string engopt) (w : World) :
  ∃ id w', Sortable_new (CElement t) opts w = Ok id w'
           ∧ (id ∉ dom (engines w))
           ∧ instance w' = instance w
           ∧ live w' = {[ id ]} ∪ live w
           ∧ engines w' !! id
             = Some {| sortable_el := Some t; sortable_options := opts;
                       __list := LUndefined |}
           ∧ calls w' = calls w ++ [CNew id t].
Proof.
  unfold Sortable_new. do 2 eexists. split; [reflexivity|]. simpl.
  pose proof (is_fresh (dom (engines w))) as Hfresh.
  repeat split; try done.
  - apply set_eq. intros id. rewrite elem_of_union, !elem_of_live. simpl.
    rewrite elem_of_singleton.
    destruct (decide (id = fresh (dom (engines w)))) as [->|Hne].
    + rewrite lookup_insert_eq. split; [by left|]. intros _. eauto.
    + rewrite lookup_insert_ne by done. split; [by right|].
      by intros [?|?].
  - by rewrite lookup_insert_eq.
Qed.

(** A call of [start] that resolves a target: the held engine, if any, is
    destroyed, then a new engine is constructed on the target and held. *)
Lemma start_resolved (target : option node) (t : nat) (w : World) :
  one_engine w →
  getTarget target w = Ok (CElement t) w →
  ∃ id w', start target w = Ok tt w'
           ∧ (id ∉ dom (engines w))
           ∧ instance w' = Some id
           ∧ live w' = {[ id ]}
           ∧ sortable_el <$> engines w' !! id = Some (Some t)
           ∧ calls w' = calls w
                        ++ match instance w with
                           | Some old => [CDestroy old]
                           | None => []
                           end
                        ++ [CNew id t].
Proof.
  intros Hone Ht.
  destruct (methods_destroy_spec w Hone)
    as (w1 & Hd & Hinst1 & Hlive1 & Hdom1 & Hcalls1).
  assert ((inst <~ reads instance ;;
           match inst with Some _ => methods_destroy | None => ret tt end) w
          = Ok tt w1) as Hstep.
  { unfold_m. destruct (instance w) eqn:Hi; [done|].
    rewrite methods_destroy_absent in Hd by done. by simplify_eq. }
  destruct (Sortable_new_spec t (mergeOptions w1) w1)
    as (id & w2 & Hnew & Hfresh & Hinst2 & Hlive2 & Heng2 & Hcalls2).
  exists id. eexists. split.
  { unfold start. unfold bind at 1. rewrite Ht.
    unfold bind at 1. unfold bind at 1 in Hstep.
    unfold reads at 1. unfold reads at 1 in Hstep.
    unfold bind at 1. rewrite Hstep.
    unfold bind at 1. unfold reads at 1.
    unfold bind at 1. rewrite Hnew.
    unfold set___list. unfold_m. reflexivity. }
  simpl. repeat split.
  - by rewrite <- Hdom1.
  - apply set_eq. intros j. rewrite elem_of_live. simpl.
    rewrite lookup_alter. split.
    + intros (s & e & Hs & He).
      assert (j ∈ live w2) as Hj.
      { apply elem_of_live. case_decide; simplify_eq.
        - rewrite Heng2 in Hs. simpl in *. simplify_eq. eauto.
        - eauto. }
      by rewrite Hlive2, Hlive1, union_empty_r_L in Hj.
    + intros ->%elem_of_singleton. rewrite decide_True by done.
      rewrite Heng2. simpl. eauto.
  - rewrite lookup_alter, decide_True by done. by rewrite Heng2.
  - rewrite Hcalls2, Hcalls1. by rewrite <- app_assoc.
Qed.

(** [getTarget] leaves the world as it is. *)
Lemma getTarget_reads (target : option node) (w : World) :
  world_after (getTarget target w) = w.
Proof.
  unfold getTarget, querySelector. unfold_m.
  destruct target as [[e|[e|]|r]|]; simpl; try done.
  destruct (el w) as [s|[e|[e|]|r]|]; simpl; try done.
  destruct (valid_selector s); simpl; [|done].
  by destruct (document w !! s).
Qed.

(** A call of [start] that resolves a node that is no element: the held
    engine, if any, is destroyed, then the engine's constructor throws. *)
Lemma start_not_element (target : option node) (n : nat) (w : World) :
  getTarget target w = Ok (CNode n) w →
  start target w
  = Throw NotAnElement
      match instance w with
      | Some _ => world_after (methods_destroy w)
      | None => w
      end.
Proof.
  intros Ht. destruct (methods_destroy_returns w) as (w1 & Hd & _).
  unfold start. unfold bind at 1. rewrite Ht.
  unfold bind at 1, reads at 1. unfold bind at 1.
  destruct (instance w); [rewrite Hd|]; reflexivity.
Qed.

Lemma start_keeps_one_engine (target : option node) (w w' : World) :
  one_engine w → start target w = Ok tt w' → one_engine w'.
Proof.
  intros Hone Hstart.
  pose proof (getTarget_reads target w) as Hw.
  destruct (getTarget target w) as [[t|n] w0|e w0] eqn:Ht; simpl in Hw;
    subst w0.
  - destruct (start_resolved target t w Hone Ht)
      as (id & w1 & Hs & _ & Hinst & Hlive & _).
    rewrite Hs in Hstart. simplify_eq.
    unfold one_engine, held. by rewrite Hinst.
  - by rewrite (start_not_element target n w Ht) in Hstart.
  - unfold start in Hstart. unfold bind at 1 in Hstart.
    by rewrite Ht in Hstart.
Qed.

Lemma destroy_keeps_one_engine (w w' : World) :
  one_engine w → methods_destroy w = Ok tt w' → one_engine w'.
Proof.
  intros Hone Hd.
  destruct (methods_destroy_spec w Hone) as (w1 & Hd1 & Hinst & Hlive & _).
  rewrite Hd1 in Hd. simplify_eq.
  unfold one_engine, held. by rewrite Hinst.
Qed.

(** A binding that has constructed nothing has one engine at most. *)
Lemma one_engine_initial (w : World) :
  engines w = ∅ → instance w = None → one_engine w.
Proof.
  intros He Hi. unfold one_engine, live, held. rewrite He, Hi.
  by rewrite map_filter_empty, dom_empty_L.
Qed.

(** C4: whenever [start] resolves a target, and whether or not an instance
    was held before, the call returns with a newly constructed engine as the
    only live engine of the binding; that engine is the held instance and is
    attached to the resolved target, and the engine held before, if any, was
    destroyed before the new one was constructed. *)
Theorem start_one_engine (target : option node) (t : nat) (w : World) :
  one_engine w →
  getTarget target w = Ok (CElement t) w →
  ∃ id w', start target w = Ok tt w'
           ∧ (id ∉ dom (engines w))
           ∧ instance w' = Some id
           ∧ live w' = {[ id ]}
           ∧ one_engine w'
           ∧ sortable_el <$> engines w' !! id = Some (Some t)
           ∧ calls w' = calls w
                        ++ match instance w with
                           | Some old => [CDestroy old]
                           | None => []
                           end
                        ++ [CNew id t].
Proof.
  intros Hone Ht.
  destruct (start_resolved target t w Hone Ht)
    as (id & w' & Hs & Hfresh & Hinst & Hlive & Hel & Hcalls).
  exists id, w'. repeat split; try done.
  unfold one_engine, held. by rewrite Hinst.
Qed.

(** *** Configuration merge *)

Lemma presetOptions_lookup (p : preset) :
  presetOptions !! preset_name p = Some (EFun (HPreset p)).
Proof. by destruct p. Qed.

(** C2: when the binding has a list ([list] is not [null]), then for each
    of its four handlers (start, add, remove, update), if the caller's
    options hold a function under the same name, the merged configuration
    holds under that name a handler that first calls the binding's own
    function for that event ([onStart], [onAdd], [onRemove] or [onUpdate])
    and then, once that has returned, the caller's function on the world it
    left, each once; when the binding's function throws, its error leaves
    the merged handler and the caller's function is not called. *)
Theorem mergeOptions_both_handlers (p : preset) (f : nat)
    (opts : gmap string optval) (w : World) :
  listRef ≠ LNull →
  options w = Some opts →
  opts !! preset_name p = Some (OFun f) →
  ∃ h, mergeOptions w !! preset_name p = Some (EFun h)
       ∧ invoked h = [HPreset p; HCaller f]
       ∧ ∀ evt w0,
           run h evt w0
           = match preset_handler p evt w0 with
             | Ok _ w1 => caller_handler f evt w1
             | Throw e w1 => Throw e w1
             end.
Proof.
  intros Hl Hopts Hf. exists (HSeq (HPreset p) (HCaller f)).
  split; [|split; [done|]].
  - unfold mergeOptions, mergeOptionsEvents. rewrite Hopts. simpl.
    rewrite lookup_union_with, lookup_fmap.
    rewrite !lookup_delete_ne by (by destruct p).
    rewrite Hf. simpl.
    destruct listRef; try done; by rewrite presetOptions_lookup.
  - intros evt w0. by destruct p.
Qed.

(** *** Reordering within a list *)

(** Removing one element at an index in range. *)
Lemma splice_remove_in_range (l : list val) (i : Z) :
  0 ≤ i < Z.of_nat (length l) →
  ∃ x, l !! Z.to_nat i = Some x
       ∧ splice l (Some i) 1 [] = (delete (Z.to_nat i) l, [x]).
Proof.
  intros Hi.
  destruct (lookup_lt_is_Some_2 l (Z.to_nat i)) as [x Hx]; [lia|].
  exists x. split; [done|]. unfold splice, to_integer. simpl.
  rewrite decide_False by lia.
  replace (i `min` Z.of_nat (length l)) with i by lia.
  replace (Z.to_nat ((1 `max` 0) `min` (Z.of_nat (length l) - i)))
    with 1%nat by lia.
  f_equal.
  - rewrite delete_take_drop. f_equal. f_equal. lia.
  - by rewrite (drop_S _ _ _ Hx).
Qed.

(** Inserting one element at an index up to the length. *)
Lemma splice_insert_in_range (l : list val) (j : Z) (x : val) :
  0 ≤ j ≤ Z.of_nat (length l) →
  fst (splice l (Some j) 0 [x])
  = take (Z.to_nat j) l ++ x :: drop (Z.to_nat j) l.
Proof.
  intros Hj. unfold splice, to_integer. simpl.
  rewrite decide_False by lia.
  replace (j `min` Z.of_nat (length l)) with j by lia.
  replace (Z.to_nat ((0 `max` 0) `min` (Z.of_nat (length l) - j)))
    with 0%nat by lia.
  by rewrite Nat.add_0_r.
Qed.

Lemma moveArrayElement_in_range (l : list val) (i j : Z) :
  0 ≤ i < Z.of_nat (length l) →
  0 ≤ j < Z.of_nat (length l) →
  ∃ x, l !! Z.to_nat i = Some x
       ∧ moveArrayElement l (Some i) (Some j)
         = take (Z.to_nat j) (delete (Z.to_nat i) l)
           ++ x :: drop (Z.to_nat j) (delete (Z.to_nat i) l).
Proof.
  intros Hi Hj.
  destruct (splice_remove_in_range l i Hi) as (x & Hx & Hsplice).
  exists x. split; [done|]. unfold moveArrayElement. rewrite Hsplice. simpl.
  apply splice_insert_in_range.
  rewrite length_delete by eauto. lia.
Qed.

(** C3: without a custom update handler, a reorder event with old index [i]
    and new index [j], both in range, replaces the collection by a sequence
    of the same length that has the element formerly at [i] at index [j]
    and, that element aside, the elements of the original in their original
    order; from [A,B,C,D], old 0 and new 2 give [B,C,A,D]. *)
Theorem onUpdate_moves (evt : SortableEvent) (w : World) (r : nat)
    (l : list val) (i j : Z) :
  listRef = LRef r →
  customUpdate_set = false →
  refs w !! r = Some l →
  oldDraggableIndex evt = Some i →
  newDraggableIndex evt = Some j →
  0 ≤ i < Z.of_nat (length l) →
  0 ≤ j < Z.of_nat (length l) →
  ∃ l', onUpdate evt w = Ok tt (set_refs (<[r := l']> (refs w)) w)
        ∧ length l' = length l
        ∧ l' !! Z.to_nat j = l !! Z.to_nat i
        ∧ delete (Z.to_nat j) l' = delete (Z.to_nat i) l
        ∧ (∀ A B C D, l = [A; B; C; D] → i = 0 → j = 2 →
                      l' = [B; C; A; D]).
Proof.
  intros Hl Hc Hr Ho Hn Hi Hj.
  destruct (moveArrayElement_in_range l i j Hi Hj) as (x & Hx & Hmove).
  assert (Z.to_nat j ≤ length (delete (Z.to_nat i) l))%nat as Hlen.
  { rewrite length_delete by eauto. lia. }
  eexists. split; [|split; [|split; [|split]]].
  - unfold onUpdate. rewrite Hc, Hl. unfold ref_value, set_ref_value.
    unfold_m. rewrite Hr, Ho, Hn. simpl. reflexivity.
  - rewrite Hmove, length_app. simpl. rewrite length_take, length_drop.
    rewrite length_delete by eauto. lia.
  - rewrite Hmove, Hx. rewrite lookup_app_r by (rewrite length_take; lia).
    rewrite length_take.
    by replace (Z.to_nat j - Z.to_nat j `min` length (delete (Z.to_nat i) l))%nat
      with 0%nat by lia.
  - rewrite Hmove.
    rewrite <- (take_drop (Z.to_nat j) (delete (Z.to_nat i) l)) at 3.
    rewrite <- (delete_middle (take (Z.to_nat j) (delete (Z.to_nat i) l))
                  (drop (Z.to_nat j) (delete (Z.to_nat i) l)) x) at 1.
    f_equal. rewrite length_take. lia.
  - intros A B C D -> -> ->. reflexivity.
Qed.

(** *** Cloning *)

(** Induction on trees that reaches the trees inside arrays and objects. *)
Lemma tree_nested_ind (P : tree → Prop) :
  P TUndef → P TNull → (∀ b, P (TBool b)) → (∀ n, P (TNum n)) →
  (∀ s, P (TStr s)) → (∀ k, P (TSpecial k)) →
  (∀ ts, Forall P ts → P (TArr ts)) →
  (∀ ps, Forall (λ kt, P (snd kt)) ps → P (TObj ps)) →
  ∀ t, P t.
Proof.
  intros Hu Hn Hb Hz Hs Hk Harr Hobj.
  fix IH 1.
  intros [ | | b | n | s | ts | ps | k ];
    [ apply Hu | apply Hn | apply Hb | apply Hz | apply Hs | | | apply Hk ].
  - apply Harr. induction ts as [|t ts IHts]; constructor; auto.
  - apply Hobj. induction ps as [|[k t] ps IHps]; constructor; auto.
Qed.

Lemma alloc_TArr (ts : list tree) (h : list hobj) :
  alloc (TArr ts) h
  = let '(vs, h') := alloc_all ts h in (VObj (length h'), h' ++ [HArr vs]).
Proof. reflexivity. Qed.

Lemma alloc_TObj (ps : list (string * tree)) (h : list hobj) :
  alloc (TObj ps) h
  = let '(kvs, h') := alloc_props ps h in
    (VObj (length h'), h' ++ [HRec kvs]).
Proof. reflexivity. Qed.

(** [alloc] only adds cells after the existing ones. *)
Lemma alloc_extends (t : tree) :
  ∀ h, ∃ ext, snd (alloc t h) = h ++ ext.
Proof.
  induction t as [ | | b | n | s | k | ts IH | ps IH ] using tree_nested_ind;
    intros h; try (exists []; simpl; by rewrite app_nil_r).
  - rewrite alloc_TArr.
    assert (∃ ext, snd (alloc_all ts h) = h ++ ext) as [ext Hext].
    { revert h. induction IH as [|t ts Ht _ IHts]; intros h; simpl.
      - exists []. by rewrite app_nil_r.
      - destruct (Ht h) as [e1 He1]. destruct (alloc t h) as [v h1].
        destruct (IHts h1) as [e2 He2].
        destruct (alloc_all ts h1) as [vs h2]. simpl in *. subst.
        exists (e1 ++ e2). by rewrite app_assoc. }
    destruct (alloc_all ts h) as [vs h']. simpl in *. subst.
    eexists. by rewrite <- app_assoc.
  - rewrite alloc_TObj.
    assert (∃ ext, snd (alloc_props ps h) = h ++ ext) as [ext Hext].
    { revert h. induction IH as [|[k t] ps Ht _ IHps]; intros h; simpl.
      - exists []. by rewrite app_nil_r.
      - simpl in Ht. destruct (Ht h) as [e1 He1].
        destruct (alloc t h) as [v h1].
        destruct (IHps h1) as [e2 He2].
        destruct (alloc_props ps h1) as [kvs h2]. simpl in *. subst.
        exists (e1 ++ e2). by rewrite app_assoc. }
    destruct (alloc_props ps h) as [kvs h']. simpl in *. subst.
    eexists. by rewrite <- app_assoc.
Qed.

Lemma alloc_all_extends_aux (ts : list tree) :
  ∀ h, ∃ ext, snd (alloc_all ts h) = h ++ ext.
Proof.
  induction ts as [|t ts IHts]; intros h; simpl.
  - exists []. by rewrite app_nil_r.
  - destruct (alloc_extends t h) as [e1 He1]. destruct (alloc t h) as [v h1].
    destruct (IHts h1) as [e2 He2]. destruct (alloc_all ts h1) as [vs h2].
    simpl in *. subst. exists (e1 ++ e2). by rewrite app_assoc.
Qed.

Lemma alloc_props_extends_aux (ps : list (string * tree)) :
  ∀ h, ∃ ext, snd (alloc_props ps h) = h ++ ext.
Proof.
  induction ps as [|[k t] ps IHps]; intros h; simpl.
  - exists []. by rewrite app_nil_r.
  - destruct (alloc_extends t h) as [e1 He1]. destruct (alloc t h) as [v h1].
    destruct (IHps h1) as [e2 He2]. destruct (alloc_props ps h1) as [kvs h2].
    simpl in *. subst. exists (e1 ++ e2). by rewrite app_assoc.
Qed.

(** What can be read from a heap can be read from any extension of it. *)
Lemma read_extend (n : nat) (h ext : list hobj) :
  ∀ v t, read n h v = Some t → read n (h ++ ext) v = Some t.
Proof.
  induction n as [|n IH]; intros [ | | b | z | s | a | k ] t; simpl; try done.
  destruct (h !! a) as [o|] eqn:Ha; [|done].
  rewrite (lookup_app_l_Some _ _ _ _ Ha).
  destruct o as [vs|ps]; intros Hread.
  - apply fmap_Some in Hread as (ts & Hts & ->).
    apply mapM_Some in Hts.
    assert (mapM (read n (h ++ ext)) vs = Some ts) as ->; [|done].
    apply mapM_Some. eapply Forall2_impl; [exact Hts|]. eauto.
  - apply fmap_Some in Hread as (ts & Hts & ->).
    apply mapM_Some in Hts.
    assert (mapM (λ kv, pair (fst kv) <$> read n (h ++ ext) (snd kv)) ps
            = Some ts) as ->; [|done].
    apply mapM_Some. eapply Forall2_impl; [exact Hts|].
    intros [k v] kt Hkt. simpl in *.
    apply fmap_Some in Hkt as (t' & Ht' & ->).
    by rewrite (IH _ _ Ht').
Qed.

(** Reading [n] levels deep yields a tree of depth at most [n]. *)
Lemma read_depth (n : nat) (h : list hobj) :
  ∀ v t, read n h v = Some t → (depth t ≤ n)%nat.
Proof.
  induction n as [|n IH]; intros [ | | b | z | s | a | k ] t; simpl;
    try (intros; simplify_eq; simpl; lia).
  destruct (h !! a) as [[vs|ps]|]; [| |done]; intros Hread;
    apply fmap_Some in Hread as (ts & Hts & ->);
    apply mapM_Some in Hts; simpl; apply le_n_S.
  - induction Hts as [|v t vs ts Hv _ IHts]; simpl; [lia|].
    apply IH in Hv. lia.
  - induction Hts as [|[k v] kt ps ts Hv _ IHts]; simpl; [lia|].
    simpl in Hv. apply fmap_Some in Hv as (t' & Ht' & ->). simpl.
    apply IH in Ht'. lia.
Qed.

(** What can be read within [n] levels can be read within any larger
    limit. *)
Lemma read_more_fuel (n m : nat) (h : list hobj) :
  (n ≤ m)%nat → ∀ v t, read n h v = Some t → read m h v = Some t.
Proof.
  revert m. induction n as [|n IH]; intros m Hm [ | | b | z | s | a | k ] t;
    try (by destruct m); simpl; try done.
  destruct m as [|m]; [lia|]. simpl.
  destruct (h !! a) as [[vs|ps]|]; [| |done]; intros Hread;
    apply fmap_Some in Hread as (ts & Hts & ->); apply mapM_Some in Hts.
  - assert (mapM (read m h) vs = Some ts) as ->; [|done].
    apply mapM_Some. eapply Forall2_impl; [exact Hts|].
    intros v t. apply IH. lia.
  - assert (mapM (λ kv, pair (fst kv) <$> read m h (snd kv)) ps = Some ts)
      as ->; [|done].
    apply mapM_Some. eapply Forall2_impl; [exact Hts|].
    intros [k v] kt Hkt. simpl in *.
    apply fmap_Some in Hkt as (t' & Ht' & ->).
    by rewrite (IH m ltac:(lia) _ _ Ht').
Qed.

(** A tree built by [alloc] reads back as itself. *)
Lemma read_alloc (t : tree) :
  ∀ n h, (depth t ≤ n)%nat →
         read n (snd (alloc t h)) (fst (alloc t h)) = Some t.
Proof.
  induction t as [ | | b | z | s | k | ts IH | ps IH ] using tree_nested_ind;
    intros n h Hn; try (by destruct n).
  - destruct n as [|n]; [simpl in Hn; lia|]. simpl in Hn.
    apply le_S_n in Hn. rewrite alloc_TArr.
    assert (Forall2 (λ v t, read n (snd (alloc_all ts h)) v = Some t)
              (fst (alloc_all ts h)) ts) as Hall.
    { clear -IH Hn. revert h.
      induction IH as [|t ts Ht _ IHts]; intros h; simpl; [constructor|].
      simpl in Hn.
      specialize (Ht n h ltac:(lia)). specialize (IHts ltac:(lia)).
      destruct (alloc t h) as [v h1]. specialize (IHts h1).
      destruct (alloc_all_extends_aux ts h1) as [ext Hext].
      destruct (alloc_all ts h1) as [vs h2]. simpl in *. subst.
      constructor; [by apply read_extend | done]. }
    destruct (alloc_all ts h) as [vs h']. simpl in *.
    rewrite (list_lookup_middle h' [] (HArr vs) (length h') eq_refl).
    assert (mapM (read n (h' ++ [HArr vs])) vs = Some ts) as ->; [|done].
    apply mapM_Some. eapply Forall2_impl; [exact Hall|].
    intros v t Hv. by apply read_extend.
  - destruct n as [|n]; [simpl in Hn; lia|]. simpl in Hn.
    apply le_S_n in Hn. rewrite alloc_TObj.
    assert (Forall2 (λ kv kt, pair (fst kv)
                                <$> read n (snd (alloc_props ps h)) (snd kv)
                              = Some kt)
              (fst (alloc_props ps h)) ps) as Hall.
    { clear -IH Hn. revert h.
      induction IH as [|[k t] ps Ht _ IHps]; intros h; simpl; [constructor|].
      simpl in Hn, Ht.
      specialize (Ht n h ltac:(lia)). specialize (IHps ltac:(lia)).
      destruct (alloc t h) as [v h1]. specialize (IHps h1).
      destruct (alloc_props_extends_aux ps h1) as [ext Hext].
      destruct (alloc_props ps h1) as [kvs h2]. simpl in *. subst.
      constructor; [|done]. simpl. by rewrite (read_extend _ _ _ _ _ Ht). }
    destruct (alloc_props ps h) as [kvs h']. simpl in *.
    rewrite (list_lookup_middle h' [] (HRec kvs) (length h') eq_refl).
    assert (mapM (λ kv, pair (fst kv)
                          <$> read n (h' ++ [HRec kvs]) (snd kv)) kvs
            = Some ps) as ->; [|done].
    apply mapM_Some. eapply Forall2_impl; [exact Hall|].
    intros [k v] kt Hv. simpl in *.
    apply fmap_Some in Hv as (t' & Ht' & ->).
    by rewrite (read_extend _ _ _ _ _ Ht').
Qed.

(** [JSON.stringify] loses nothing of a JSON value. *)
Lemma jsonify_json_ok (t : tree) : json_ok t = true → jsonify t = t.
Proof.
  induction t as [ | | b | z | s | k | ts IH | ps IH ] using tree_nested_ind;
    try done; simpl; intros Hok; f_equal.
  - induction IH as [|t ts Ht _ IHts]; [done|]. simpl in *.
    apply andb_true_iff in Hok as [Hok1 Hok2].
    rewrite IHts by done. rewrite Ht by done. by destruct t.
  - induction IH as [|[k t] ps Ht _ IHps]; [done|]. simpl in *.
    apply andb_true_iff in Hok as [Hok1 Hok2].
    rewrite (Ht Hok1). unfold omap in IHps. rewrite IHps by done.
    by destruct t.
Qed.

(** A value representable under one recursion limit is representable under
    any larger one. *)
Lemma representable_more_fuel (n m : nat) (w : World) (x : val) :
  (n ≤ m)%nat → representable_at n w x → representable_at m w x.
Proof.
  intros Hm (t & Hread & Hok). exists t. split; [|done].
  by apply (read_more_fuel n m).
Qed.

(** A fresh structure is built at an address beyond the existing cells. *)
Lemma alloc_fresh_address (n : nat) (h : list hobj) (a : nat) (t : tree) :
  read n h (VObj a) = Some t →
  ∃ a', fst (alloc t h) = VObj a' ∧ (a < length h ≤ a')%nat.
Proof.
  destruct n as [|n]; simpl; [done|].
  destruct (h !! a) as [o|] eqn:Ha; [|done].
  apply lookup_lt_Some in Ha.
  destruct o as [vs|ps]; intros Hread;
    apply fmap_Some in Hread as (ts & _ & ->).
  - rewrite alloc_TArr. destruct (alloc_all_extends_aux ts h) as [ext Hext].
    destruct (alloc_all ts h) as [vs' h']. simpl in *. subst.
    eexists. split; [done|]. rewrite length_app. lia.
  - rewrite alloc_TObj. destruct (alloc_props_extends_aux ts h) as [ext Hext].
    destruct (alloc_props ts h) as [kvs h']. simpl in *. subst.
    eexists. split; [done|]. rewrite length_app. lia.
Qed.

(** C6: for an object [x] representable in the serialization format,
    [defaultClone(x)] returns a reference different from [x]; the structure
    below the clone after the call is the structure that was below [x]
    before the call, and so is the structure below [x] after the call, so
    the two are deeply equal; the call has only added cells to the heap.
    [defaultClone(undefined)] is [undefined] and [defaultClone(null)] is
    [null], with nothing changed. *)
Theorem defaultClone_round_trip (w : World) (a : nat) :
  representable w (VObj a) →
  (∃ a' w', defaultClone (VObj a) w = Ok (VObj a') w'
            ∧ a' ≠ a
            ∧ same_structure w (VObj a) w' (VObj a')
            ∧ same_structure w (VObj a) w' (VObj a)
            ∧ deep_equal w' (VObj a') (VObj a)
            ∧ ∃ ext, w' = set_heap (heap w ++ ext) w)
  ∧ defaultClone VUndefined w = Ok VUndefined w
  ∧ defaultClone VNull w = Ok VNull w.
Proof.
  intros (t & Hread & Hok). split; [|done].
  destruct (alloc_fresh_address _ _ _ _ Hread) as (a' & Ha' & Hlt).
  destruct (alloc_extends t (heap w)) as [ext Hext].
  pose proof (read_alloc t stack_limit (heap w) (read_depth _ _ _ _ Hread))
    as Hback.
  rewrite Ha' in Hback.
  assert (read stack_limit (snd (alloc t (heap w))) (VObj a) = Some t)
    as Hkept by (rewrite Hext; by apply read_extend).
  exists a', (set_heap (snd (alloc t (heap w))) w).
  split; [|split; [lia|split; [|split; [|split]]]].
  - unfold defaultClone, JSON_stringify, JSON_parse. unfold_m.
    rewrite Hread, (jsonify_json_ok t Hok).
    destruct (alloc t (heap w)) as [v h'] eqn:Halloc. simpl in Ha'.
    rewrite Ha'. reflexivity.
  - by exists t.
  - by exists t.
  - by exists t.
  - exists ext. by rewrite Hext.
Qed.

(** *** Items dropped in from another list *)

(** An element with no own property whose key starts with ["Sortable"]
    resolves to no list. *)
Lemma getListFromEl_no_handle (e : nat) (w : World) :
  Forall (λ kv, String.prefix "Sortable" (fst kv) = false)
         (default [] (props w !! e)) →
  getListFromEl e w = LUndefined.
Proof.
  intros Hall. unfold getListFromEl.
  assert (find (λ kv : string * propval, String.prefix "Sortable" (fst kv))
               (default [] (props w !! e)) = None) as ->; [|done].
  induction Hall as [|kv ps Hkv _ IH]; [done|].
  simpl. by rewrite Hkv.
Qed.

(** When the source element resolves to no list, [onAdd] reads [.value] of
    [undefined]: it throws a [TypeError], before changing anything. *)
Lemma onAdd_unresolved_source (evt : SortableEvent) (w : World) :
  getListFromEl (from evt) w = LUndefined →
  onAdd evt w = Throw TypeError w.
Proof. intros Hfrom. unfold onAdd. unfold_m. by rewrite Hfrom. Qed.

(** When the source list has no item at the old index, [onAdd] returns
    without changing anything. *)
Lemma onAdd_missing_item (evt : SortableEvent) (w : World) (r : nat) :
  getListFromEl (from evt) w = LRef r →
  js_index (default [] (refs w !! r)) (oldIndex evt) = VUndefined →
  onAdd evt w = Ok tt w.
Proof.
  intros Hfrom Hitem. unfold onAdd. unfold_m. rewrite Hfrom. simpl.
  by rewrite Hitem.
Qed.

(** When the source list has an item at the old index, that very value is
    inserted into the bound list at the new index. *)
Lemma onAdd_inserts (evt : SortableEvent) (w : World) (r d : nat) :
  listRef = LRef d →
  getListFromEl (from evt) w = LRef r →
  isUndefined (js_index (default [] (refs w !! r)) (oldIndex evt)) = false →
  onAdd evt w
  = Ok tt (set_refs
             (<[d := insertElement (default [] (refs w !! d))
                       (newDraggableIndex evt)
                       (js_index (default [] (refs w !! r)) (oldIndex evt))]>
                (refs w)) w).
Proof.
  intros Hl Hfrom Hitem. unfold onAdd. unfold_m. rewrite Hfrom. simpl.
  rewrite Hitem, Hl. reflexivity.
Qed.


(** *** More on resolving the container *)

Lemma getTarget_cases (target : option node) (w : World) :
  (∃ c, getTarget target w = Ok c w)
  ∨ getTarget target w = Throw (Error "Root element not found") w
  ∨ (target = None
     ∧ (∃ s, el w = ElString s ∧ valid_selector s = false)
     ∧ getTarget target w = Throw SyntaxError w).
Proof.
  unfold getTarget, querySelector. unfold_m.
  destruct target as [[e|[e|]|r]|]; simpl; eauto.
  destruct (el w) as [s|[e|[e|]|r]|] eqn:Hel; simpl; eauto.
  destruct (valid_selector s) eqn:Hv; simpl.
  - destruct (document w !! s); simpl; eauto.
  - right. right. eauto.
Qed.

(** X1: [getTarget] only reads.  Whatever its argument, it returns a node
    (an element, or the non-element [$el] of a component), or throws the
    error "Root element not found", or, when no target is given and [el] is
    a string that is no selector, lets the [SyntaxError] of
    [document.querySelector] through; in every case the world is the same
    afterwards. *)
Theorem getTarget_outcome (target : option node) (w : World) :
  (∃ c, getTarget target w = Ok c w)
  ∨ getTarget target w = Throw (Error "Root element not found") w
  ∨ (target = None
     ∧ (∃ s, el w = ElString s ∧ valid_selector s = false)
     ∧ getTarget target w = Throw SyntaxError w).
Proof. apply getTarget_cases. Qed.

(** X2: an explicit target wins over the configured [el]: an element is
    used as it is, a component instance stands for its root element, and a
    component instance without a root element makes [getTarget] throw, with
    no fallback to [el].  A component instance whose [$el] is a node that
    is no element stands for that node. *)
Theorem getTarget_explicit (n : node) (w : World) :
  getTarget (Some n) w
  = match n with
    | NElement e | NComponent (Some e) => Ok (CElement e) w
    | NComponent None => Throw (Error "Root element not found") w
    | NFragment r => Ok (CNode r) w
    end.
Proof. by destruct n as [e|[e|]|r]. Qed.

Lemma methods_destroy_options (w w' : World) :
  methods_destroy w = Ok tt w' →
  options w' = options w ∧ refs w' = refs w ∧ heap w' = heap w.
Proof.
  unfold methods_destroy, Sortable_destroy. unfold_m.
  destruct (instance w) as [id|]; [destruct (engines w !! id) as [s|];
    [destruct (sortable_el s)|]|]; intros; simplify_eq; done.
Qed.

(** Once an element is resolved, [start] destroys the held instance, if
    any, and goes on to construct the new one. *)
Lemma start_returns (target : option node) (t : nat) (w : World) :
  getTarget target w = Ok (CElement t) w →
  ∃ w0, match instance w with
        | Some _ => methods_destroy w
        | None => Ok tt w
        end = Ok tt w0
        ∧ start target w
          = (id <~ Sortable_new (CElement t) (mergeOptions w) ;;
             modify (set_instance (Some id)) ;;;
             set___list id listRef) w0.
Proof.
  intros Ht. destruct (methods_destroy_returns w) as (w1 & Hd & Hnone).
  destruct (methods_destroy_options _ _ Hd) as (Hopts & _).
  unfold start. unfold bind at 1. rewrite Ht.
  unfold bind at 1, reads at 1. unfold bind at 1.
  destruct (instance w) as [old|] eqn:Hinst.
  - exists w1. split; [done|]. rewrite Hd.
    unfold bind at 1, reads at 1. unfold mergeOptions. by rewrite Hopts.
  - exists w. split; [done|]. reflexivity.
Qed.

(** The two ways in which [start] throws. *)
Lemma start_throws (target : option node) (w w' : World) (e : JsError) :
  start target w = Throw e w' →
  (getTarget target w = Throw e w ∧ w' = w)
  ∨ (∃ n, getTarget target w = Ok (CNode n) w
          ∧ e = NotAnElement
          ∧ w' = match instance w with
                 | Some _ => world_after (methods_destroy w)
                 | None => w
                 end
          ∧ instance w' = None
          ∧ refs w' = refs w).
Proof.
  intros Hs. pose proof (getTarget_reads target w) as Hw.
  destruct (getTarget target w) as [[t|n] w0|e0 w0] eqn:Ht; simpl in Hw;
    subst w0.
  - destruct (start_returns target t w Ht) as (w0 & _ & Hok).
    rewrite Hok in Hs. discriminate.
  - right. exists n. rewrite (start_not_element target n w Ht) in Hs.
    simplify_eq. repeat split; try done.
    + destruct (instance w) eqn:Hi; [|done].
      destruct (methods_destroy_returns w) as (w1 & Hd & Hnone).
      by rewrite Hd.
    + destruct (instance w) eqn:Hi; [|done].
      destruct (methods_destroy_returns w) as (w1 & Hd & Hnone).
      rewrite Hd. simpl. by destruct (methods_destroy_options _ _ Hd)
        as (_ & -> & _).
  - left. unfold start in Hs. unfold bind at 1 in Hs. rewrite Ht in Hs.
    by simplify_eq.
Qed.

(** X3: a call of [start] throws in one of two ways.  Either [getTarget]
    threw ("Root element not found", or the [SyntaxError] of an invalid
    selector): then nothing has changed, and an instance held before the
    call is still held and was not destroyed.  Or [getTarget] returned a
    node that is no element and the engine's constructor refused it: then
    the instance held before the call, if any, has already been destroyed
    and no instance is held; the bound lists are as before. *)
Theorem start_failure (target : option node) (w w' : World) (e : JsError) :
  start target w = Throw e w' →
  (getTarget target w = Throw e w ∧ w' = w)
  ∨ (∃ n, getTarget target w = Ok (CNode n) w
          ∧ e = NotAnElement
          ∧ w' = match instance w with
                 | Some _ => world_after (methods_destroy w)
                 | None => w
                 end
          ∧ instance w' = None
          ∧ refs w' = refs w).
Proof. apply start_throws. Qed.

(** *** The side channel from a container to its list *)

Lemma prefix_expando : String.prefix "Sortable" expando = true.
Proof. unfold expando. simpl. by destruct expando_stamp. Qed.

(** On an element whose only keys with the prefix are [key], a write to
    [key] is what [find] meets first. *)
Lemma find_set_prop (key : string) (v : propval)
    (ps : list (string * propval)) :
  String.prefix "Sortable" key = true →
  Forall (λ kv, String.prefix "Sortable" (fst kv) = true → fst kv = key) ps →
  find (λ kv : string * propval, String.prefix "Sortable" (fst kv))
       (set_prop key v ps) = Some (key, v).
Proof.
  intros Hkey. induction 1 as [|[k x] ps Hk _ IH]; simpl.
  - by rewrite Hkey.
  - case_decide as Heq; simpl.
    + by rewrite Hkey.
    + destruct (String.prefix "Sortable" k) eqn:Hp; [|done].
      by specialize (Hk Hp).
Qed.

Lemma set_prop_only_key (key : string) (v : propval)
    (ps : list (string * propval)) :
  Forall (λ kv, String.prefix "Sortable" (fst kv) = true → fst kv = key) ps →
  Forall (λ kv, String.prefix "Sortable" (fst kv) = true → fst kv = key)
         (set_prop key v ps).
Proof.
  induction 1 as [|[k x] ps Hk Hps IH]; simpl.
  - by constructor.
  - case_decide; constructor; done.
Qed.

Lemma methods_destroy_props (w w' : World) (t : nat) :
  methods_destroy w = Ok tt w' →
  Forall (λ kv, String.prefix "Sortable" (fst kv) = true → fst kv = expando)
         (default [] (props w !! t)) →
  Forall (λ kv, String.prefix "Sortable" (fst kv) = true → fst kv = expando)
         (default [] (props w' !! t)).
Proof.
  unfold methods_destroy, Sortable_destroy. unfold_m.
  destruct (instance w) as [id|]; [destruct (engines w !! id) as [s|];
    [destruct (sortable_el s) as [e|]|]|]; intros; simplify_eq; simpl;
    try done.
  destruct (decide (e = t)) as [->|Hne].
  - rewrite lookup_insert_eq. simpl. by apply set_prop_only_key.
  - by rewrite lookup_insert_ne.
Qed.

(** X4: after a call of [start] that resolves the target [t], the new
    instance holds the merged configuration and the bound list, and the
    side channel leads from [t] to that list: [getListFromEl(t)] is [list].
    This needs the element to have no other own property whose name starts
    with "Sortable". *)
Theorem start_registers_list (target : option node) (t : nat) (w : World) :
  getTarget target w = Ok (CElement t) w →
  Forall (λ kv, String.prefix "Sortable" (fst kv) = true → fst kv = expando)
         (default [] (props w !! t)) →
  ∃ id w', start target w = Ok tt w'
           ∧ instance w' = Some id
           ∧ engines w' !! id
             = Some {| sortable_el := Some t;
                       sortable_options := mergeOptions w;
                       __list := listRef |}
           ∧ getListFromEl t w' = listRef.
Proof.
  intros Ht Hprops.
  destruct (start_returns target t w Ht) as (w0 & Hw0 & Hstart).
  assert (Forall (λ kv, String.prefix "Sortable" (fst kv) = true
                        → fst kv = expando)
            (default [] (props w0 !! t))) as Hprops0.
  { destruct (instance w); [|by simplify_eq].
    by apply (methods_destroy_props w w0 t). }
  eexists. eexists. split; [rewrite Hstart; reflexivity|].
  simpl. split; [done|]. split.
  - rewrite lookup_alter, decide_True by done.
    by rewrite lookup_insert_eq.
  - unfold getListFromEl. simpl. rewrite lookup_insert_eq. simpl.
    rewrite (find_set_prop _ _ _ prefix_expando Hprops0).
    rewrite lookup_alter, decide_True by done.
    by rewrite lookup_insert_eq.
Qed.

(** X5: [getListFromEl] consults only the first own property whose name
    starts with "Sortable": what that property holds decides the result,
    whatever comes after it. *)
Theorem getListFromEl_first_key (e : nat) (w : World)
    (pre rest : list (string * propval)) (k : string) (v : propval) :
  props w !! e = Some (pre ++ (k, v) :: rest) →
  Forall (λ kv, String.prefix "Sortable" (fst kv) = false) pre →
  String.prefix "Sortable" k = true →
  getListFromEl e w
  = match v with
    | PSortable id => default LUndefined (__list <$> engines w !! id)
    | PForeign l => l
    | PNull | POther => LUndefined
    end.
Proof.
  intros Hprops Hpre Hk. unfold getListFromEl. rewrite Hprops. simpl.
  assert (find (λ kv : string * propval, String.prefix "Sortable" (fst kv))
               (pre ++ (k, v) :: rest) = Some (k, v)) as ->.
  { clear Hprops.
    induction Hpre as [|kv pre Hkv _ IH]; simpl; [by rewrite Hk|].
    by rewrite Hkv. }
  destruct v as [id| | |]; try done. by destruct (engines w !! id).
Qed.

(** *** More on the configuration merge *)

(** X6: [immediate] and [clone] never reach the engine, and every other key
    that is not one of the binding's handler names, [customUpdate] included,
    reaches it with the caller's value. *)
Theorem mergeOptions_rest (w : World) (k : string) :
  presetOptions !! k = None →
  mergeOptions w !! k
  = if decide (k = "immediate" ∨ k = "clone") then None
    else to_engopt <$> default ∅ (options w) !! k.
Proof.
  intros Hk. unfold mergeOptions, mergeOptionsEvents.
  rewrite lookup_union_with, lookup_fmap.
  assert ((match listRef with LNull => ∅ | _ => presetOptions end) !! k
          = None) as ->.
  { destruct listRef; try done. }
  case_decide as Hstrip.
  - destruct Hstrip as [->| ->].
    + by rewrite lookup_delete_eq.
    + rewrite lookup_delete_ne by done. by rewrite lookup_delete_eq.
  - rewrite !lookup_delete_ne by (intros Heq; apply Hstrip; auto).
    by destruct (default ∅ (options w) !! k).
Qed.

(** X7: when the binding has a list and the caller gives no value under a
    handler name of the binding, the engine gets the binding's handler
    alone. *)
Theorem mergeOptions_preset_alone (p : preset) (w : World) :
  listRef ≠ LNull →
  default ∅ (options w) !! preset_name p = None →
  mergeOptions w !! preset_name p = Some (EFun (HPreset p)).
Proof.
  intros Hl Hnone. unfold mergeOptions, mergeOptionsEvents.
  rewrite lookup_union_with, lookup_fmap.
  rewrite !lookup_delete_ne by (by destruct p). rewrite Hnone. simpl.
  destruct listRef; try done; by rewrite presetOptions_lookup.
Qed.

(** X8: when [list] is [null], no handler of the binding is installed:
    under each handler name the engine gets what the caller gave, if
    anything. *)
Theorem mergeOptions_null_list (p : preset) (w : World) :
  listRef = LNull →
  mergeOptions w !! preset_name p
  = to_engopt <$> default ∅ (options w) !! preset_name p.
Proof.
  intros Hl. unfold mergeOptions, mergeOptionsEvents. rewrite Hl.
  rewrite lookup_union_with, lookup_fmap, lookup_empty.
  rewrite !lookup_delete_ne by (by destruct p).
  by destruct (default ∅ (options w) !! preset_name p).
Qed.

(** *** The methods, with an instance *)

(** Setting or reading an option detaches no engine. *)
Lemma Sortable_option_quiet (id : nat) (name : string)
    (value : option engopt) (w : World) :
  quiet (Sortable_option id name value) w.
Proof.
  unfold quiet, Sortable_option.
  assert (∀ v, live (set_engines
                       (alter (λ s, {| sortable_el := sortable_el s;
                                       sortable_options :=
                                         <[name := v]> (sortable_options s);
                                       __list := __list s |}) id (engines w))
                       (log (COption id name value) w)) = live w) as Hlive.
  { intros v. apply set_eq. intros j. rewrite !elem_of_live. simpl.
    rewrite lookup_alter. case_decide as Hj; [subst j|done].
    destruct (engines w !! id) as [s|]; simpl;
      split; intros (s' & e & Hs & He); simplify_eq; simpl in *; eauto. }
  destruct value as [[h|v]|]; try destruct v;
    do 2 eexists; (split; [reflexivity|]); simpl; repeat split;
    try done; apply Hlive.
Qed.

Lemma quiet_instance {A} (k : option nat → M A) (w : World) :
  quiet (k (instance w)) w → quiet (inst <~ reads instance ;; k inst) w.
Proof. unfold quiet. unfold_m. done. Qed.

(** X9: [save], [toArray], [closest], [option], [pause] and [resume] always
    return, and none of them changes which instance is held, which engines
    are live, the bound lists or the heap. *)
Theorem passthrough_keeps_binding (w : World) (name : string)
    (value : option optval) (e : nat) (selector : option string) :
  quiet (methods_option name value) w
  ∧ quiet pause w
  ∧ quiet resume w
  ∧ quiet methods_save w
  ∧ quiet methods_toArray w
  ∧ quiet (methods_closest e selector) w.
Proof.
  assert (∀ A (a : A), quiet (ret a) w) as Hret.
  { intros A a. do 2 eexists. split; [reflexivity|]. done. }
  unfold pause, resume, methods_option, methods_save, methods_toArray,
    methods_closest.
  repeat split; apply quiet_instance; destruct (instance w) as [id|];
    try apply Hret; try apply Sortable_option_quiet;
    unfold quiet; unfold_m; do 2 eexists; (split; [reflexivity|]); done.
Qed.

(** X10: with a held instance, [pause()] sets the engine's [disabled] option
    and [resume()] clears it: reading the option back after [pause()] gives
    [true], and after [pause()] and [resume()] gives [false]. *)
Theorem pause_resume_flag (w : World) (id : nat) (s : Sortable) :
  instance w = Some id →
  engines w !! id = Some s →
  (∃ w', (pause ;;; methods_option "disabled" None) w
         = Ok (Some (EData (VBool true))) w')
  ∧ (∃ w', (pause ;;; resume ;;; methods_option "disabled" None) w
           = Ok (Some (EData (VBool false))) w').
Proof.
  intros Hinst Hs.
  unfold pause, resume, methods_option, Sortable_option. unfold_m.
  rewrite Hinst. simpl. rewrite Hinst. simpl.
  split; eexists.
  - rewrite lookup_alter, decide_True, Hs by done. simpl.
    by rewrite lookup_insert_eq.
  - rewrite Hinst. simpl.
    rewrite !lookup_alter, !decide_True, Hs by done. simpl.
    by rewrite lookup_insert_eq.
Qed.

(** *** Mounting and unmounting *)

Lemma onMounted_keeps_one_engine (w : World) :
  one_engine w → one_engine (world_after (onMounted w)).
Proof.
  intros Hone. unfold onMounted. destruct immediate; [|done].
  destruct (start None w) as [[] w'|e w'] eqn:Hs; simpl.
  - by apply (start_keeps_one_engine None w w').
  - destruct (start_throws _ _ _ _ Hs)
      as [[_ ->]|(n & _ & _ & -> & _)]; [done|].
    destruct (instance w) eqn:Hi; [|done].
    destruct (methods_destroy_spec w Hone) as (w1 & Hd & Hinst & Hlive & _).
    rewrite Hd. simpl. unfold one_engine, held. by rewrite Hinst.
Qed.

(** X11: whatever [immediate] says and whether or not the automatic
    [start()] found its target, after the mount callback and then the
    unmount callback no instance is held and no engine of the binding is
    live. *)
Theorem unmount_leaves_no_engine (w : World) :
  one_engine w →
  ∃ w', onUnmounted (world_after (onMounted w)) = Ok tt w'
        ∧ instance w' = None
        ∧ live w' = ∅.
Proof.
  intros Hone.
  destruct (methods_destroy_spec _ (onMounted_keeps_one_engine w Hone))
    as (w' & Hd & Hinst & Hlive & _).
  by exists w'.
Qed.

(** *** More on cloning *)

Lemma set_heap_id (w : World) : set_heap (heap w) w = w.
Proof. by destruct w. Qed.

(** X12: the default clone of a boolean, of a string and of an
    integer-valued number other than [-0] is that value; the default clone
    of [NaN], of [Infinity] and of [-Infinity] is [null], and that of [-0]
    is [0].  In every case nothing is allocated or changed. *)
Theorem defaultClone_primitive (w : World) :
  (∀ b, defaultClone (VBool b) w = Ok (VBool b) w)
  ∧ (∀ n, defaultClone (VNum n) w = Ok (VNum n) w)
  ∧ (∀ s, defaultClone (VStr s) w = Ok (VStr s) w)
  ∧ defaultClone (VSpecial NaN) w = Ok VNull w
  ∧ defaultClone (VSpecial PosInfinity) w = Ok VNull w
  ∧ defaultClone (VSpecial NegInfinity) w = Ok VNull w
  ∧ defaultClone (VSpecial NegZero) w = Ok (VNum 0) w.
Proof.
  assert (∀ v v' t, (∀ n, read n (heap w) v = Some t) →
                    alloc (jsonify t) (heap w) = (v', heap w) →
                    (text <~ JSON_stringify v ;; JSON_parse text) w
                    = Ok v' w)
    as Hprim.
  { intros v v' t Hread Halloc. unfold JSON_stringify, JSON_parse.
    unfold_m. rewrite Hread, Halloc. by rewrite set_heap_id. }
  repeat split.
  - intros b. apply (Hprim _ _ (TBool b)); try done. by intros [|n].
  - intros n. apply (Hprim _ _ (TNum n)); try done. by intros [|m].
  - intros s. apply (Hprim _ _ (TStr s)); try done. by intros [|n].
  - apply (Hprim _ _ (TSpecial NaN)); try done. by intros [|n].
  - apply (Hprim _ _ (TSpecial PosInfinity)); try done. by intros [|n].
  - apply (Hprim _ _ (TSpecial NegInfinity)); try done. by intros [|n].
  - apply (Hprim _ _ (TSpecial NegZero)); try done. by intros [|n].
Qed.

(** What [JSON.stringify] keeps is no deeper than the original. *)
Lemma depth_jsonify (t : tree) : (depth (jsonify t) ≤ depth t)%nat.
Proof.
  induction t as [ | | b | z | s | k | ts IH | ps IH ] using tree_nested_ind;
    simpl; try lia; try (destruct k; simpl; lia); apply le_n_S.
  - induction IH as [|t ts Ht _ IHts]; simpl; [lia|].
    destruct t as [ | | | | | | |[]]; simpl in *; lia.
  - induction IH as [|[k t] ps Ht _ IHps]; simpl; [lia|].
    unfold omap in IHps. destruct t as [ | | | | | | |[]]; simpl in *; lia.
Qed.

(** What [JSON.stringify] keeps of anything but [undefined] is a JSON
    value. *)
Lemma json_ok_jsonify (t : tree) : t ≠ TUndef → json_ok (jsonify t) = true.
Proof.
  induction t as [ | | b | z | s | k | ts IH | ps IH ] using tree_nested_ind;
    try done; intros _; simpl; try (by destruct k).
  - induction IH as [|t ts Ht _ IHts]; simpl; [done|].
    rewrite IHts, andb_true_r.
    destruct t as [ | | | | | | |[]]; try done; by apply Ht.
  - induction IH as [|[k t] ps Ht _ IHps]; simpl; [done|].
    unfold omap in IHps.
    destruct t as [ | | | | | | |[]]; simpl in *; try done;
      rewrite IHps, andb_true_r; try done; by apply Ht.
Qed.

Lemma read_object_tree (n : nat) (h : list hobj) (a : nat) (t : tree) :
  read n h (VObj a) = Some t →
  (a < length h)%nat ∧ ((∃ ts, t = TArr ts) ∨ (∃ ps, t = TObj ps)).
Proof.
  destruct n as [|n]; simpl; [done|].
  destruct (h !! a) as [o|] eqn:Ha; [|done].
  apply lookup_lt_Some in Ha.
  destruct o as [vs|ps]; intros Hread;
    apply fmap_Some in Hread as (ts & _ & ->); eauto.
Qed.

Lemma fresh_from_mono (n m : nat) (v : val) :
  (n ≤ m)%nat → fresh_from m v → fresh_from n v.
Proof. destruct v; simpl; try done. lia. Qed.

Lemma cell_fresh_mono (n m : nat) (c : hobj) :
  (n ≤ m)%nat → cell_fresh m c → cell_fresh n c.
Proof.
  intros Hnm. unfold cell_fresh. intros Hc.
  eapply Forall_impl; [exact Hc|]. intros v. by apply fresh_from_mono.
Qed.

(** [alloc] adds cells after the existing ones; the cells it adds, and the
    value it returns, refer to added cells only. *)
Lemma alloc_isolated (t : tree) :
  ∀ h, ∃ ext, snd (alloc t h) = h ++ ext
              ∧ Forall (cell_fresh (length h)) ext
              ∧ fresh_from (length h) (fst (alloc t h)).
Proof.
  induction t as [ | | b | n | s | k | ts IH | ps IH ] using tree_nested_ind;
    intros h;
    try (exists []; simpl; by rewrite app_nil_r).
  - rewrite alloc_TArr.
    assert (∃ ext, snd (alloc_all ts h) = h ++ ext
                   ∧ Forall (cell_fresh (length h)) ext
                   ∧ Forall (fresh_from (length h)) (fst (alloc_all ts h)))
      as (ext & Hext & Hcells & Hvs).
    { revert h. induction IH as [|t ts Ht _ IHts]; intros h; simpl.
      - exists []. by rewrite app_nil_r.
      - destruct (Ht h) as (e1 & He1 & Hc1 & Hv1).
        destruct (alloc t h) as [v h1]. simpl in *. subst h1.
        destruct (IHts (h ++ e1)) as (e2 & He2 & Hc2 & Hv2).
        destruct (alloc_all ts (h ++ e1)) as [vs h2]. simpl in *. subst h2.
        assert (length h ≤ length (h ++ e1))%nat
          by (rewrite length_app; lia).
        exists (e1 ++ e2). rewrite app_assoc. split; [done|]. split.
        + apply Forall_app. split; [done|].
          eapply Forall_impl; [exact Hc2|]. intros c.
          by apply cell_fresh_mono.
        + constructor; [done|]. eapply Forall_impl; [exact Hv2|].
          intros v'. by apply fresh_from_mono. }
    destruct (alloc_all ts h) as [vs h']. simpl in *. subst h'.
    exists (ext ++ [HArr vs]). rewrite app_assoc. split; [done|]. split.
    + apply Forall_app. split; [done|]. by constructor.
    + rewrite length_app. lia.
  - rewrite alloc_TObj.
    assert (∃ ext, snd (alloc_props ps h) = h ++ ext
                   ∧ Forall (cell_fresh (length h)) ext
                   ∧ Forall (fresh_from (length h))
                       (snd <$> fst (alloc_props ps h)))
      as (ext & Hext & Hcells & Hvs).
    { revert h. induction IH as [|[k t] ps Ht _ IHps]; intros h; simpl.
      - exists []. by rewrite app_nil_r.
      - simpl in Ht. destruct (Ht h) as (e1 & He1 & Hc1 & Hv1).
        destruct (alloc t h) as [v h1]. simpl in *. subst h1.
        destruct (IHps (h ++ e1)) as (e2 & He2 & Hc2 & Hv2).
        destruct (alloc_props ps (h ++ e1)) as [kvs h2]. simpl in *.
        subst h2.
        assert (length h ≤ length (h ++ e1))%nat
          by (rewrite length_app; lia).
        exists (e1 ++ e2). rewrite app_assoc. split; [done|]. split.
        + apply Forall_app. split; [done|].
          eapply Forall_impl; [exact Hc2|]. intros c.
          by apply cell_fresh_mono.
        + constructor; [done|]. eapply Forall_impl; [exact Hv2|].
          intros v'. by apply fresh_from_mono. }
    destruct (alloc_props ps h) as [kvs h']. simpl in *. subst h'.
    exists (ext ++ [HRec kvs]). rewrite app_assoc. split; [done|]. split.
    + apply Forall_app. split; [done|]. by constructor.
    + rewrite length_app. lia.
Qed.

(** The default clone of an object whose structure can be read. *)
Lemma defaultClone_object (w : World) (a : nat) (t : tree) :
  read stack_limit (heap w) (VObj a) = Some t →
  ∃ a' w', defaultClone (VObj a) w = Ok (VObj a') w'
           ∧ (a < length (heap w) ≤ a')%nat
           ∧ read stack_limit (heap w') (VObj a') = Some (jsonify t)
           ∧ read stack_limit (heap w') (VObj a) = Some t
           ∧ w' = set_heap (heap w') w
           ∧ ∃ ext, heap w' = heap w ++ ext.
Proof.
  intros Hread.
  destruct (read_object_tree _ _ _ _ Hread) as (Ha & Hshape).
  destruct (alloc_isolated (jsonify t) (heap w)) as (ext & Hext & _ & Hv).
  assert (depth (jsonify t) ≤ stack_limit)%nat as Hdepth.
  { pose proof (depth_jsonify t). pose proof (read_depth _ _ _ _ Hread).
    lia. }
  pose proof (read_alloc (jsonify t) stack_limit (heap w) Hdepth) as Hback.
  assert (∃ a', fst (alloc (jsonify t) (heap w)) = VObj a') as [a' Ha'].
  { destruct Hshape as [[ts ->]|[ps ->]].
    - change (jsonify (TArr ts)) with
        (TArr (map (λ t, match t with TUndef => TNull | _ => jsonify t end)
                 ts)).
      rewrite alloc_TArr. destruct (alloc_all _ _). eauto.
    - change (jsonify (TObj ps)) with
        (TObj (omap (λ kt, match snd kt with
                           | TUndef => None
                           | _ => Some (fst kt, jsonify (snd kt))
                           end) ps)).
      rewrite alloc_TObj. destruct (alloc_props _ _). eauto. }
  rewrite Ha' in Hv, Hback. simpl in Hv.
  exists a', (set_heap (snd (alloc (jsonify t) (heap w))) w).
  split; [|split; [lia|split; [done|split; [|split]]]].
  - unfold defaultClone, JSON_stringify, JSON_parse. unfold_m.
    rewrite Hread.
    destruct (alloc (jsonify t) (heap w)) as [v h'] eqn:Halloc.
    simpl in Ha'. by rewrite Ha'.
  - simpl. rewrite Hext. by apply read_extend.
  - reflexivity.
  - by exists ext.
Qed.

(** X13: the default clone of an object is what JSON keeps of it: the
    result is a new reference to a structure that is the original with
    every property holding [undefined] dropped and every [undefined] array
    element replaced by [null]; it contains no [undefined], the original
    reads as before, and only the heap has changed. *)
Theorem defaultClone_lossy (w : World) (a : nat) (t : tree) :
  read stack_limit (heap w) (VObj a) = Some t →
  ∃ a' w', defaultClone (VObj a) w = Ok (VObj a') w'
           ∧ a' ≠ a
           ∧ read stack_limit (heap w') (VObj a') = Some (jsonify t)
           ∧ json_ok (jsonify t) = true
           ∧ read stack_limit (heap w') (VObj a) = Some t
           ∧ w' = set_heap (heap w') w.
Proof.
  intros Hread.
  destruct (defaultClone_object w a t Hread)
    as (a' & w' & Hc & Hlt & Hnew & Hold & Hw' & _).
  exists a', w'. repeat split; try done; [lia|].
  apply json_ok_jsonify.
  destruct (read_object_tree _ _ _ _ Hread) as (_ & [[ts ->]|[ps ->]]);
    done.
Qed.

(** X14: whatever [defaultClone] returns, it has only added cells to the
    heap: the cells that were there are untouched, the added cells hold
    references to added cells only, and the result is a primitive or a
    reference to an added cell.  The clone shares no cell with any object
    that existed before. *)
Theorem defaultClone_isolated (x v : val) (w w' : World) :
  defaultClone x w = Ok v w' →
  ∃ ext, w' = set_heap (heap w ++ ext) w
         ∧ Forall (cell_fresh (length (heap w))) ext
         ∧ fresh_from (length (heap w)) v.
Proof.
  assert (∀ y, (text <~ JSON_stringify y ;; JSON_parse text) w = Ok v w' →
               ∃ ext, w' = set_heap (heap w ++ ext) w
                      ∧ Forall (cell_fresh (length (heap w))) ext
                      ∧ fresh_from (length (heap w)) v) as Hgen.
  { intros y. unfold JSON_stringify, JSON_parse. unfold_m.
    destruct (read stack_limit (heap w) y) as [t|]; [|done].
    destruct (alloc_isolated (jsonify t) (heap w)) as (ext & Hext & Hc & Hv).
    destruct (alloc (jsonify t) (heap w)) as [v0 h']. simpl in *.
    intros ?; simplify_eq. by exists ext. }
  destruct x; try apply Hgen; unfold defaultClone, ret;
    intros ?; simplify_eq; exists []; rewrite app_nil_r, set_heap_id; done.
Qed.

(** A cell that holds a reference to itself cannot be read, however deep
    the reading goes. *)
Lemma read_self_containing (n : nat) (h : list hobj) (a : nat) :
  self_containing h a → read n h (VObj a) = None.
Proof.
  intros (c & Hc & Hin). induction n as [|n IH]; simpl; [done|].
  rewrite Hc. destruct c as [vs|ps]; simpl in Hin.
  - destruct (mapM (read n h) vs) as [ts|] eqn:Hm; [|done].
    assert (is_Some (mapM (read n h) vs)) as Hsome by eauto.
    apply mapM_is_Some in Hsome.
    apply (proj1 (Forall_forall _ _)) with (x := VObj a) in Hsome;
      [|done].
    simpl in Hsome. rewrite IH in Hsome. by destruct Hsome.
  - destruct (mapM (λ kv, pair (fst kv) <$> read n h (snd kv)) ps)
      as [ts|] eqn:Hm; [|done].
    assert (is_Some (mapM (λ kv, pair (fst kv) <$> read n h (snd kv)) ps))
      as Hsome by eauto.
    apply mapM_is_Some in Hsome.
    apply list_elem_of_fmap in Hin as ([k v] & Hv & Hkv). simpl in Hv.
    subst v.
    apply (proj1 (Forall_forall _ _)) with (x := (k, VObj a)) in Hsome;
      [|done].
    simpl in Hsome. rewrite IH in Hsome. by destruct Hsome.
Qed.

(** X15: an object that holds a reference to itself cannot be cloned by
    default: [defaultClone] throws, whatever the recursion limit, and the
    world is as before. *)
Theorem defaultClone_cyclic (w : World) (a : nat) :
  self_containing (heap w) a →
  defaultClone (VObj a) w = Throw SerializationError w.
Proof.
  intros Hself. unfold defaultClone, JSON_stringify. unfold_m.
  by rewrite (read_self_containing _ _ _ Hself).
Qed.

(** *** More on event translation *)

(** X16: with the default clone function, a drag-start event on an object
    item that is representable in the serialization format stores on the
    dragged node a new reference; the structure below that reference is the
    structure that was below the item before the event, and the item has
    that structure still, so the two are deeply equal.  The bound list is
    unchanged and holds the item itself, and the heap has only grown. *)
Theorem onStart_clones_object (evt : SortableEvent) (w : World) (r a : nat) :
  listRef = LRef r →
  optionsUnref !! "clone" = None →
  js_index (default [] (refs w !! r)) (oldIndex evt) = VObj a →
  representable w (VObj a) →
  ∃ a' w', onStart evt w = Ok tt w'
           ∧ stash w' !! item evt = Some (VObj a')
           ∧ a' ≠ a
           ∧ same_structure w (VObj a) w' (VObj a')
           ∧ same_structure w (VObj a) w' (VObj a)
           ∧ deep_equal w' (VObj a') (VObj a)
           ∧ refs w' = refs w
           ∧ ∃ ext, heap w' = heap w ++ ext.
Proof.
  intros Hl Hc Hitem (t & Hread & Hok).
  destruct (defaultClone_object w a t Hread)
    as (a' & w1 & Hclone & Hlt & Hnew & Hold & Hw1 & Hext).
  rewrite (jsonify_json_ok t Hok) in Hnew.
  exists a', (set_stash (<[item evt := VObj a']> (stash w1)) w1).
  split; [|split; [|split; [|split; [|split; [|split; [|split]]]]]].
  - unfold onStart, clone. rewrite Hl, Hc. simpl.
    unfold bind at 1. unfold bind at 1, reads at 1, ret at 1.
    rewrite Hitem. unfold bind at 1. by rewrite Hclone.
  - simpl. by rewrite lookup_insert_eq.
  - lia.
  - by exists t.
  - by exists t.
  - by exists t.
  - simpl. by rewrite Hw1.
  - done.
Qed.

(** X17: with the default clone function, a drag-start event on an item
    that holds a reference to itself makes [onStart] throw: nothing is
    stored on the dragged node and nothing else has changed. *)
Theorem onStart_clone_failure (evt : SortableEvent) (w : World) (r a : nat) :
  listRef = LRef r →
  optionsUnref !! "clone" = None →
  js_index (default [] (refs w !! r)) (oldIndex evt) = VObj a →
  self_containing (heap w) a →
  onStart evt w = Throw SerializationError w.
Proof.
  intros Hl Hc Hitem Hself.
  unfold onStart, clone. rewrite Hl, Hc. simpl.
  unfold bind at 1. unfold bind at 1, reads at 1, ret at 1.
  rewrite Hitem. unfold bind at 1.
  unfold defaultClone, JSON_stringify. unfold_m.
  by rewrite (read_self_containing _ _ _ Hself).
Qed.

(** X18: whether they return or throw, [onAdd], [onRemove] and, without a
    custom update handler, [onUpdate] change nothing but the value of the
    bound list: not the heap (an added item is not copied), not the list the
    item came from, not the instance or its engine. *)
Theorem handlers_change_bound_list_only (evt : SortableEvent) (w : World) :
  customUpdate_set = false →
  only_bound_list w (world_after (onAdd evt w))
  ∧ only_bound_list w (world_after (onRemove evt w))
  ∧ only_bound_list w (world_after (onUpdate evt w)).
Proof.
  intros Hcustom. unfold only_bound_list, onAdd, onRemove, onUpdate.
  rewrite Hcustom. unfold ref_value, set_ref_value. unfold_m.
  split; [|split].
  - destruct (getListFromEl (from evt) w) as [| |r]; simpl; eauto.
    destruct (isUndefined _); simpl; eauto.
    destruct listRef as [| |d]; simpl; eauto.
  - destruct listRef as [| |d]; simpl; eauto.
  - destruct listRef as [| |d]; simpl; eauto.
Qed.

(** X19: when [list] is [null] or [undefined], [onRemove] and, without a
    custom update handler, [onUpdate] throw a [TypeError], and so does
    [onAdd] once it has found an item to add; [onStart] with the default
    clone function does not throw and stores [undefined].  Nothing else
    changes in any of these cases. *)
Theorem handlers_without_list (evt : SortableEvent) (w : World) :
  listRef = LNull ∨ listRef = LUndefined →
  onRemove evt w = Throw TypeError w
  ∧ (customUpdate_set = false → onUpdate evt w = Throw TypeError w)
  ∧ (∀ r, getListFromEl (from evt) w = LRef r →
          isUndefined (js_index (default [] (refs w !! r)) (oldIndex evt))
          = false →
          onAdd evt w = Throw TypeError w)
  ∧ (optionsUnref !! "clone" = None →
     onStart evt w
     = Ok tt (set_stash (<[item evt := VUndefined]> (stash w)) w)).
Proof.
  intros Hl. split; [|split; [|split]].
  - unfold onRemove. by destruct Hl as [-> | ->].
  - intros Hc. unfold onUpdate. rewrite Hc. by destruct Hl as [-> | ->].
  - intros r Hfrom Hitem. unfold onAdd. unfold_m. rewrite Hfrom. simpl.
    rewrite Hitem. by destruct Hl as [-> | ->].
  - intros Hc. unfold onStart, clone. rewrite Hc.
    by destruct Hl as [-> | ->].
Qed.

(** X20: an add event whose source list has an item at the old index puts
    that very value, not a copy, into the bound list at the new index, the
    other elements keeping their order; when the source list is another
    list it is left as it was ([insertElement] being
    [splice(index, 0, element)]). *)
Theorem onAdd_inserts_item (evt : SortableEvent) (w : World) (r d : nat)
    (j : Z) (x : val) (dest : list val) :
  listRef = LRef d →
  getListFromEl (from evt) w = LRef r →
  js_index (default [] (refs w !! r)) (oldIndex evt) = x →
  isUndefined x = false →
  refs w !! d = Some dest →
  newDraggableIndex evt = Some j →
  0 ≤ j ≤ Z.of_nat (length dest) →
  ∃ dest', onAdd evt w = Ok tt (set_refs (<[d := dest']> (refs w)) w)
           ∧ dest' !! Z.to_nat j = Some x
           ∧ delete (Z.to_nat j) dest' = dest
           ∧ (r ≠ d → <[d := dest']> (refs w) !! r = refs w !! r).
Proof.
  intros Hl Hfrom Hx Hdef Hdest Hj Hrange.
  exists (take (Z.to_nat j) dest ++ x :: drop (Z.to_nat j) dest).
  assert (length (take (Z.to_nat j) dest) = Z.to_nat j) as Hlen
    by (rewrite length_take; lia).
  split; [|split; [|split]].
  - rewrite (onAdd_inserts evt w r d Hl Hfrom) by (by rewrite Hx).
    rewrite Hx, Hdest, Hj. unfold insertElement.
    change (default [] (Some dest)) with dest.
    by rewrite (splice_insert_in_range dest j x Hrange).
  - by rewrite list_lookup_middle.
  - rewrite <- Hlen at 1. rewrite delete_middle. apply take_drop.
  - intros Hne. by rewrite lookup_insert_ne.
Qed.

Lemma onRemove_in_range (evt : SortableEvent) (w : World) (r : nat)
    (l : list val) (i : Z) :
  listRef = LRef r →
  refs w !! r = Some l →
  oldDraggableIndex evt = Some i →
  0 ≤ i < Z.of_nat (length l) →
  onRemove evt w
  = Ok tt (set_refs (<[r := delete (Z.to_nat i) l]> (refs w)) w).
Proof.
  intros Hl Hr Hi Hrange.
  destruct (splice_remove_in_range l i Hrange) as (x & _ & Hsplice).
  unfold onRemove, removeElement. rewrite Hl.
  unfold ref_value, set_ref_value. unfold_m.
  rewrite Hr, Hi. change (default [] (Some l)) with l.
  by rewrite Hsplice.
Qed.

(** X21: a remove event with an old index in range replaces the bound list
    by the list without the element at that index ([removeElement] being
    [splice(index, 1)]). *)
Theorem onRemove_deletes (evt : SortableEvent) (w : World) (r : nat)
    (l : list val) (i : Z) :
  listRef = LRef r →
  refs w !! r = Some l →
  oldDraggableIndex evt = Some i →
  0 ≤ i < Z.of_nat (length l) →
  onRemove evt w
  = Ok tt (set_refs (<[r := delete (Z.to_nat i) l]> (refs w)) w).
Proof. apply onRemove_in_range. Qed.

(** *** Destroying and mounting *)

(** X22: [destroy()] on a held, attached instance calls the engine's
    [destroy] once and forgets the instance; the engine is detached, and
    the bound lists and the heap are as before. *)
Theorem methods_destroy_detaches (w : World) (id t : nat) (s : Sortable) :
  instance w = Some id →
  engines w !! id = Some s →
  sortable_el s = Some t →
  ∃ w', methods_destroy w = Ok tt w'
        ∧ instance w' = None
        ∧ calls w' = calls w ++ [CDestroy id]
        ∧ sortable_el <$> engines w' !! id = Some None
        ∧ (id ∉ live w')
        ∧ refs w' = refs w
        ∧ heap w' = heap w.
Proof.
  intros Hinst Hs Ht. unfold methods_destroy, Sortable_destroy. unfold_m.
  rewrite Hinst, Hs, Ht. eexists. split; [reflexivity|]. simpl.
  repeat split; try done.
  - by rewrite lookup_insert_eq.
  - rewrite elem_of_live. simpl. rewrite lookup_insert_eq.
    intros (s' & e & Hs' & He). by simplify_eq.
Qed.

(** X23: the mount callback calls [start()] when the options give no
    [immediate] or give [undefined]; when they give [false], [null], [0] or
    the empty string it does nothing at all. *)
Theorem onMounted_immediate (w : World) :
  (optionsUnref !! "immediate" = None
   ∨ optionsUnref !! "immediate" = Some (OData VUndefined) →
   onMounted w = start None w)
  ∧ (∀ v, optionsUnref !! "immediate" = Some (OData v) →
          v ≠ VUndefined → truthy v = false →
          onMounted w = Ok tt w).
Proof.
  unfold onMounted, immediate. split.
  - by intros [-> | ->].
  - intros v -> Hv Hfalsy. simpl. rewrite Hfalsy. by destruct v.
Qed.
End useDraggable.

(** ** The documentation page, run *)

Example demo_start :
  start demo_stamp demo_css (LRef 0) None demo = Ok tt demo_started.
Proof. vm_compute. reflexivity. Qed.

(** After [start], the container resolves to the bound list. *)
Example demo_started_resolves : getListFromEl 10 demo_started = LRef 0.
Proof. reflexivity. Qed.

(** Dragging the first person to the third place: the engine fires
    [onUpdate], the list is reordered and the caller's handler runs. *)
Example demo_reorder :
  ∃ w, fire 8 demo_handler demo_clone (LRef 0) demo_options
            "onUpdate" (drag 0 2) demo_started = Ok tt w
       ∧ refs w !! 0%nat = Some [VObj 1; VObj 2; VObj 0; VObj 3].
Proof. eexists. split; vm_compute; reflexivity. Qed.

Lemma passthrough_without_instance_demo :
  methods_save demo = Ok tt demo
  ∧ methods_toArray demo_toArray demo = Ok None demo
  ∧ methods_closest demo_closest 20 (Some ".item") demo = Ok None demo
  ∧ methods_option "animation" None demo = Ok None demo
  ∧ pause demo = Ok None demo
  ∧ resume demo = Ok None demo.
Proof.
  apply (passthrough_without_instance demo_toArray demo_closest demo
           "animation" None 20%nat (Some ".item")).
  reflexivity.
Defined.

Lemma start_without_target_demo :
  getTarget demo_css None demo_unmounted
    = Throw (Error "Root element not found") demo_unmounted
  ∧ start demo_stamp demo_css (LRef 0) None demo_unmounted
    = Throw (Error "Root element not found") demo_unmounted.
Proof.
  apply (start_without_target demo_stamp demo_css (LRef 0) demo_unmounted).
  left. reflexivity.
Defined.

(** C5 as first stated fails for a string that is no selector: with the
    empty string as [el], [start()] throws the [SyntaxError] of
    [document.querySelector], not "Root element not found". *)
Lemma start_with_empty_selector :
  el demo_empty_selector = ElString ""
  ∧ document demo_empty_selector !! "" = None
  ∧ start demo_stamp demo_css (LRef 0) None demo_empty_selector
    = Throw SyntaxError demo_empty_selector
  ∧ start demo_stamp demo_css (LRef 0) None demo_empty_selector
    ≠ Throw (Error "Root element not found") demo_empty_selector.
Proof. repeat split; try reflexivity. discriminate. Qed.

Lemma onUpdate_custom_demo :
  onUpdate demo_handler (LRef 0) custom_options (drag 0 2) demo
    = demo_handler 2 (drag 0 2) demo
  ∧ (∀ w', demo_handler 2 (drag 0 2) demo = Ok tt w' → refs w' = refs demo →
           ∃ w'', onUpdate demo_handler (LRef 0) custom_options (drag 0 2) demo
                  = Ok tt w''
                  ∧ refs w'' = refs demo).
Proof.
  apply (onUpdate_custom demo_handler (LRef 0) custom_options 2%nat
           (drag 0 2) demo).
  reflexivity.
Defined.

Lemma onStart_missing_item_demo :
  onStart 8 demo_clone (LRef 0) demo_options (drag 7 0) demo
    = Ok tt (set_stash (<[20%nat := VUndefined]> (stash demo)) demo)
  ∧ stash (set_stash (<[20%nat := VUndefined]> (stash demo)) demo) !! 20%nat
    = Some VUndefined
  ∧ refs (set_stash (<[20%nat := VUndefined]> (stash demo)) demo) = refs demo.
Proof.
  apply (onStart_missing_item 8 demo_clone (LRef 0) demo_options (drag 7 0)
           demo 0%nat); reflexivity.
Defined.

Lemma start_one_engine_demo :
  ∃ id w', start demo_stamp demo_css (LRef 0) None demo_started = Ok tt w'
           ∧ (id ∉ dom (engines demo_started))
           ∧ instance w' = Some id
           ∧ live w' = {[ id ]}
           ∧ one_engine w'
           ∧ sortable_el <$> engines w' !! id = Some (Some 10%nat)
           ∧ calls w' = calls demo_started ++ [CDestroy 0] ++ [CNew id 10].
Proof.
  apply (start_one_engine demo_stamp demo_css (LRef 0) None 10%nat demo_started);
    vm_compute; reflexivity.
Defined.

Lemma mergeOptions_both_handlers_demo :
  ∃ h, mergeOptions (LRef 0) demo !! preset_name POnUpdate = Some (EFun h)
       ∧ invoked h = [HPreset POnUpdate; HCaller 1]
       ∧ ∀ evt w0,
           run 8 demo_handler demo_clone (LRef 0) demo_options h evt w0
           = match preset_handler 8 demo_handler demo_clone (LRef 0)
                     demo_options POnUpdate evt w0 with
             | Ok _ w1 => demo_handler 1 evt w1
             | Throw e w1 => Throw e w1
             end.
Proof.
  apply (mergeOptions_both_handlers 8 demo_handler demo_clone (LRef 0)
           demo_options POnUpdate 1%nat demo_options demo);
    [discriminate | reflexivity | reflexivity].
Defined.

(** C2 as first stated fails in two cases.  With [list] null the merged
    configuration holds the caller's function alone: firing it returns,
    where the binding's [onUpdate] would have thrown, so the binding's
    function was not called.  And with a list, when the binding's [onAdd]
    throws (here on an item from a container that Sortable manages on its
    own), the merged handler throws with it and the caller's function,
    which would have left its mark, was not called. *)
Lemma merged_handler_not_both :
  mergeOptions LNull demo !! preset_name POnUpdate = Some (EFun (HCaller 1))
  ∧ run 8 demo_handler demo_clone LNull demo_options (HCaller 1) (drag 0 2)
      demo = Ok tt demo
  ∧ preset_handler 8 demo_handler demo_clone LNull demo_options POnUpdate
      (drag 0 2) demo = Throw TypeError demo
  ∧ mergeOptions (LRef 0) demo_with_onAdd !! preset_name POnAdd
    = Some (EFun (HSeq (HPreset POnAdd) (HCaller 3)))
  ∧ run 8 marking_handler demo_clone (LRef 0) ∅
      (HSeq (HPreset POnAdd) (HCaller 3)) (drop_in 11 1 0) demo_with_onAdd
    = Throw TypeError demo_with_onAdd
  ∧ stash demo_with_onAdd !! 99%nat = None
  ∧ stash (world_after (marking_handler 3 (drop_in 11 1 0) demo_with_onAdd))
      !! 99%nat = Some (VNum 3).
Proof. repeat split; reflexivity. Qed.

Lemma onUpdate_moves_demo :
  ∃ l', onUpdate demo_handler (LRef 0) demo_options (drag 0 2) demo
        = Ok tt (set_refs (<[0%nat := l']> (refs demo)) demo)
        ∧ length l' = 4%nat
        ∧ l' !! 2%nat = Some (VObj 0)
        ∧ delete 2%nat l' = [VObj 1; VObj 2; VObj 3]
        ∧ (∀ A B C D, [VObj 0; VObj 1; VObj 2; VObj 3] = [A; B; C; D] →
                      0 = 0 → 2 = 2 → l' = [B; C; A; D]).
Proof.
  apply (onUpdate_moves demo_handler (LRef 0) demo_options (drag 0 2) demo
           0%nat [VObj 0; VObj 1; VObj 2; VObj 3] 0 2);
    try reflexivity; simpl; lia.
Defined.

Lemma defaultClone_round_trip_demo :
  (∃ a' w', defaultClone 8 (VObj 0) demo = Ok (VObj a') w'
            ∧ a' ≠ 0%nat
            ∧ same_structure 8 demo (VObj 0) w' (VObj a')
            ∧ same_structure 8 demo (VObj 0) w' (VObj 0)
            ∧ deep_equal 8 w' (VObj a') (VObj 0)
            ∧ ∃ ext, w' = set_heap (heap demo ++ ext) demo)
  ∧ defaultClone 8 VUndefined demo = Ok VUndefined demo
  ∧ defaultClone 8 VNull demo = Ok VNull demo.
Proof.
  apply (defaultClone_round_trip 8 demo 0%nat).
  eexists. split; reflexivity.
Defined.

(** The end-to-end move of the specification: the item at index 1 of
    [A,B,C] is dropped at index 0 of the bound list [X,Y]. *)
Example two_lists_add :
  ∃ w, onAdd (LRef 0) (drop_in 11 1 0) two_lists = Ok tt w
       ∧ refs w !! 0%nat = Some [VStr "B"; VStr "X"; VStr "Y"]
       ∧ refs w !! 1%nat = Some [VStr "A"; VStr "B"; VStr "C"].
Proof. eexists. split; [|split]; vm_compute; reflexivity. Qed.

(** The other binding, for which [A,B,C] is the bound list, removes it. *)
Example two_lists_remove :
  ∃ w, onRemove (LRef 1) (drop_in 11 1 0) two_lists = Ok tt w
       ∧ refs w !! 1%nat = Some [VStr "A"; VStr "C"].
Proof. eexists. split; vm_compute; reflexivity. Qed.

(** C1, at add events whose source container resolves to no list: the
    container [12] carries no Sortable handle at all, and the container [11]
    carries a Sortable instance that was not created by [useDraggable].  In
    both cases [onAdd] throws a [TypeError]; the bound list is unchanged. *)
Theorem onAdd_unmanaged_source_throws :
  getListFromEl 12 demo_beside_plain_sortable = LUndefined
  ∧ onAdd (LRef 0) (drop_in 12 1 0) demo_beside_plain_sortable
    = Throw TypeError demo_beside_plain_sortable
  ∧ getListFromEl 11 demo_beside_plain_sortable = LUndefined
  ∧ onAdd (LRef 0) (drop_in 11 1 0) demo_beside_plain_sortable
    = Throw TypeError demo_beside_plain_sortable.
Proof. repeat split; reflexivity. Qed.

(** ** Two bindings, one move *)

(** X24: an item dragged from the list of one binding to the list of
    another.  The engine fires [add] on the destination, then [remove] on
    the source.  The destination receives the source's element at
    [oldIndex]; the source loses its element at [oldDraggableIndex].  When
    the two indices agree the move loses and duplicates nothing; when they
    differ the added item is still in the source list afterwards. *)
Theorem move_between_lists (evt : SortableEvent) (w : World) (r d : nat)
    (src dest : list val) (i k j : Z) (x : val) :
  r ≠ d →
  getListFromEl (from evt) w = LRef r →
  refs w !! r = Some src →
  refs w !! d = Some dest →
  oldIndex evt = Some i →
  oldDraggableIndex evt = Some k →
  newDraggableIndex evt = Some j →
  0 ≤ i < Z.of_nat (length src) →
  0 ≤ k < Z.of_nat (length src) →
  0 ≤ j ≤ Z.of_nat (length dest) →
  src !! Z.to_nat i = Some x →
  isUndefined x = false →
  ∃ w', (onAdd (LRef d) evt ;;; onRemove (LRef r) evt) w = Ok tt w'
        ∧ refs w' !! d
          = Some (take (Z.to_nat j) dest ++ x :: drop (Z.to_nat j) dest)
        ∧ refs w' !! r = Some (delete (Z.to_nat k) src)
        ∧ (i = k →
           (take (Z.to_nat j) dest ++ x :: drop (Z.to_nat j) dest)
             ++ delete (Z.to_nat k) src ≡ₚ dest ++ src)
        ∧ (i ≠ k → x ∈ delete (Z.to_nat k) src).
Proof.
  intros Hne Hfrom Hsrc Hdest Hi Hk Hj Hir Hkr Hjr Hx Hdef.
  assert (js_index (default [] (refs w !! r)) (oldIndex evt) = x) as Hitem.
  { rewrite Hsrc, Hi. unfold js_index. rewrite decide_True by lia.
    simpl. by rewrite Hx. }
  destruct (splice_remove_in_range src k Hkr) as (y & Hy & Hsplice).
  eexists. split; [|split; [|split; [|split]]].
  - unfold bind at 1.
    rewrite (onAdd_inserts (LRef d) evt w r d eq_refl Hfrom)
      by (by rewrite Hitem).
    rewrite Hitem, Hdest, Hj. unfold insertElement.
    change (default [] (Some dest)) with dest.
    rewrite (splice_insert_in_range dest j x Hjr).
    apply (onRemove_in_range (LRef r) evt _ r src k eq_refl); try done.
    simpl. by rewrite lookup_insert_ne.
  - simpl. rewrite lookup_insert_ne by done. by rewrite lookup_insert_eq.
  - simpl. by rewrite lookup_insert_eq.
  - intros ->.
    rewrite (delete_Permutation src (Z.to_nat k) x Hx) at 2.
    rewrite <- (take_drop (Z.to_nat j) dest) at 3.
    rewrite <- !Permutation_middle. simpl.
    by rewrite <- app_assoc.
  - intros Hik. apply list_elem_of_lookup.
    destruct (decide (Z.to_nat i < Z.to_nat k)%nat) as [Hlt|Hge].
    + exists (Z.to_nat i). by rewrite list_lookup_delete_lt.
    + exists (Z.to_nat i - 1)%nat.
      rewrite list_lookup_delete_ge by lia.
      by replace (S (Z.to_nat i - 1)) with (Z.to_nat i) by lia.
Qed.

(** ** The further properties, on the documentation page *)

Lemma start_failure_demo :
  (getTarget demo_css (Some (NFragment 30)) demo_started
   = Throw NotAnElement demo_started
   ∧ world_after (methods_destroy demo_stamp demo_started) = demo_started)
  ∨ (∃ n, getTarget demo_css (Some (NFragment 30)) demo_started
          = Ok (CNode n) demo_started
          ∧ NotAnElement = NotAnElement
          ∧ world_after (methods_destroy demo_stamp demo_started)
            = match instance demo_started with
              | Some _ => world_after (methods_destroy demo_stamp demo_started)
              | None => demo_started
              end
          ∧ instance (world_after (methods_destroy demo_stamp demo_started))
            = None
          ∧ refs (world_after (methods_destroy demo_stamp demo_started))
            = refs demo_started).
Proof.
  apply (start_failure demo_stamp demo_css (LRef 0) (Some (NFragment 30))
           demo_started
           (world_after (methods_destroy demo_stamp demo_started))
           NotAnElement).
  reflexivity.
Defined.

Lemma start_registers_list_demo :
  ∃ id w', start demo_stamp demo_css (LRef 0) None demo_started = Ok tt w'
           ∧ instance w' = Some id
           ∧ engines w' !! id
             = Some {| sortable_el := Some 10%nat;
                       sortable_options := mergeOptions (LRef 0) demo_started;
                       __list := LRef 0 |}
           ∧ getListFromEl 10 w' = LRef 0.
Proof.
  apply (start_registers_list demo_stamp demo_css (LRef 0) None 10%nat demo_started).
  - reflexivity.
  - constructor; [intros _; reflexivity | constructor].
Defined.

Lemma getListFromEl_first_key_demo :
  getListFromEl 11 shadowed = LUndefined.
Proof.
  apply (getListFromEl_first_key 11%nat shadowed [("id", POther)]
           [("Sortable1700000000000", PForeign (LRef 1))]
           "SortableGroup" POther).
  - reflexivity.
  - constructor; [reflexivity | constructor].
  - reflexivity.
Defined.

Lemma mergeOptions_rest_demo :
  mergeOptions (LRef 0) demo !! "animation"
  = if decide ("animation" = "immediate" ∨ "animation" = "clone") then None
    else to_engopt <$> default ∅ (options demo) !! "animation".
Proof.
  apply (mergeOptions_rest (LRef 0) demo "animation"). reflexivity.
Defined.

Lemma mergeOptions_preset_alone_demo :
  mergeOptions (LRef 0) demo !! preset_name POnAdd
  = Some (EFun (HPreset POnAdd)).
Proof.
  apply (mergeOptions_preset_alone (LRef 0) POnAdd demo);
    [discriminate | reflexivity].
Defined.

Lemma mergeOptions_null_list_demo :
  mergeOptions LNull demo !! preset_name POnUpdate
  = to_engopt <$> default ∅ (options demo) !! preset_name POnUpdate.
Proof.
  apply (mergeOptions_null_list LNull POnUpdate demo). reflexivity.
Defined.

Lemma pause_resume_flag_demo :
  (∃ w', (pause ;;; methods_option "disabled" None) demo_started
         = Ok (Some (EData (VBool true))) w')
  ∧ (∃ w', (pause ;;; resume ;;; methods_option "disabled" None) demo_started
           = Ok (Some (EData (VBool false))) w').
Proof.
  apply (pause_resume_flag demo_started 0%nat
           {| sortable_el := Some 10%nat; sortable_options := demo_merged;
              __list := LRef 0 |}); reflexivity.
Defined.

Lemma unmount_leaves_no_engine_demo :
  ∃ w', onUnmounted demo_stamp
          (world_after (onMounted demo_stamp demo_css (LRef 0) demo_options demo))
        = Ok tt w'
        ∧ instance w' = None
        ∧ live w' = ∅.
Proof.
  apply (unmount_leaves_no_engine demo_stamp demo_css (LRef 0) demo_options demo).
  vm_compute. reflexivity.
Defined.

Lemma defaultClone_lossy_demo :
  ∃ a' w', defaultClone 8 (VObj 1) sparse = Ok (VObj a') w'
           ∧ a' ≠ 1%nat
           ∧ read 8 (heap w') (VObj a') = Some (jsonify sparse_tree)
           ∧ json_ok (jsonify sparse_tree) = true
           ∧ read 8 (heap w') (VObj 1) = Some sparse_tree
           ∧ w' = set_heap (heap w') sparse.
Proof.
  apply (defaultClone_lossy 8 sparse 1%nat sparse_tree). reflexivity.
Defined.

Lemma defaultClone_isolated_demo :
  ∃ ext,
    set_heap (people ++ [HRec [("name", VStr "Joao"); ("id", VNum 1)]]) demo
    = set_heap (heap demo ++ ext) demo
    ∧ Forall (cell_fresh (length (heap demo))) ext
    ∧ fresh_from (length (heap demo)) (VObj 4).
Proof.
  apply (defaultClone_isolated 8 (VObj 0) (VObj 4) demo
           (set_heap (people ++ [HRec [("name", VStr "Joao"); ("id", VNum 1)]])
              demo)).
  reflexivity.
Defined.

Lemma defaultClone_cyclic_demo :
  defaultClone 8 (VObj 0) looped = Throw SerializationError looped.
Proof.
  apply (defaultClone_cyclic 8 looped 0%nat).
  eexists. split; [reflexivity|]. simpl. repeat constructor.
Defined.

Lemma onStart_clones_object_demo :
  ∃ a' w', onStart 8 demo_clone (LRef 0) demo_options (drag 0 2) demo
           = Ok tt w'
           ∧ stash w' !! item (drag 0 2) = Some (VObj a')
           ∧ a' ≠ 0%nat
           ∧ same_structure 8 demo (VObj 0) w' (VObj a')
           ∧ same_structure 8 demo (VObj 0) w' (VObj 0)
           ∧ deep_equal 8 w' (VObj a') (VObj 0)
           ∧ refs w' = refs demo
           ∧ ∃ ext, heap w' = heap demo ++ ext.
Proof.
  apply (onStart_clones_object 8 demo_clone (LRef 0) demo_options (drag 0 2)
           demo 0%nat 0%nat); try reflexivity.
  eexists. split; reflexivity.
Defined.

Lemma onStart_clone_failure_demo :
  onStart 8 demo_clone (LRef 0) ∅ (drag 0 0) looped
  = Throw SerializationError looped.
Proof.
  apply (onStart_clone_failure 8 demo_clone (LRef 0) ∅ (drag 0 0) looped
           0%nat 0%nat); try reflexivity.
  eexists. split; [reflexivity|]. simpl. repeat constructor.
Defined.

Lemma handlers_change_bound_list_only_demo :
  only_bound_list (LRef 0) two_lists
    (world_after (onAdd (LRef 0) (drop_in 11 1 0) two_lists))
  ∧ only_bound_list (LRef 0) two_lists
      (world_after (onRemove (LRef 0) (drop_in 11 1 0) two_lists))
  ∧ only_bound_list (LRef 0) two_lists
      (world_after
         (onUpdate demo_handler (LRef 0) demo_options (drop_in 11 1 0)
            two_lists)).
Proof.
  apply (handlers_change_bound_list_only demo_handler (LRef 0) demo_options
           (drop_in 11 1 0) two_lists).
  reflexivity.
Defined.

Lemma handlers_without_list_demo :
  onRemove LUndefined (drag 0 2) demo = Throw TypeError demo
  ∧ (customUpdate_set demo_options = false →
     onUpdate demo_handler LUndefined demo_options (drag 0 2) demo
     = Throw TypeError demo)
  ∧ (∀ r, getListFromEl (from (drag 0 2)) demo = LRef r →
          isUndefined
            (js_index (default [] (refs demo !! r)) (oldIndex (drag 0 2)))
          = false →
          onAdd LUndefined (drag 0 2) demo = Throw TypeError demo)
  ∧ (demo_options !! "clone" = None →
     onStart 8 demo_clone LUndefined demo_options (drag 0 2) demo
     = Ok tt (set_stash (<[item (drag 0 2) := VUndefined]> (stash demo))
                demo)).
Proof.
  apply (handlers_without_list 8 demo_handler demo_clone LUndefined
           demo_options (drag 0 2) demo).
  right. reflexivity.
Defined.

Lemma onAdd_inserts_item_demo :
  ∃ dest', onAdd (LRef 0) (drop_in 11 1 0) two_lists
           = Ok tt (set_refs (<[0%nat := dest']> (refs two_lists)) two_lists)
           ∧ dest' !! 0%nat = Some (VStr "B")
           ∧ delete 0%nat dest' = [VStr "X"; VStr "Y"]
           ∧ (1%nat ≠ 0%nat →
              <[0%nat := dest']> (refs two_lists) !! 1%nat
              = refs two_lists !! 1%nat).
Proof.
  apply (onAdd_inserts_item (LRef 0) (drop_in 11 1 0) two_lists 1%nat 0%nat
           0 (VStr "B") [VStr "X"; VStr "Y"]);
    try reflexivity.
  simpl. lia.
Defined.

Lemma onRemove_deletes_demo :
  onRemove (LRef 1) (drop_in 11 1 0) two_lists
  = Ok tt (set_refs (<[1%nat := [VStr "A"; VStr "C"]]> (refs two_lists))
             two_lists).
Proof.
  apply (onRemove_deletes (LRef 1) (drop_in 11 1 0) two_lists 1%nat
           [VStr "A"; VStr "B"; VStr "C"] 1);
    try reflexivity.
  simpl. lia.
Defined.

Lemma methods_destroy_detaches_demo :
  ∃ w', methods_destroy demo_stamp demo_started = Ok tt w'
        ∧ instance w' = None
        ∧ calls w' = calls demo_started ++ [CDestroy 0]
        ∧ sortable_el <$> engines w' !! 0%nat = Some None
        ∧ (0%nat ∉ live w')
        ∧ refs w' = refs demo_started
        ∧ heap w' = heap demo_started.
Proof.
  apply (methods_destroy_detaches demo_stamp demo_started 0%nat 10%nat
           {| sortable_el := Some 10%nat; sortable_options := demo_merged;
              __list := LRef 0 |}); reflexivity.
Defined.

Lemma onMounted_immediate_demo :
  onMounted demo_stamp demo_css (LRef 0) manual_options demo = Ok tt demo.
Proof.
  apply (proj2 (onMounted_immediate demo_stamp demo_css (LRef 0) manual_options demo)
           (VBool false)); [reflexivity | discriminate | reflexivity].
Defined.

Lemma move_between_lists_demo :
  ∃ w', (onAdd (LRef 0) (drop_in 11 1 0) ;;;
         onRemove (LRef 1) (drop_in 11 1 0)) two_lists = Ok tt w'
        ∧ refs w' !! 0%nat = Some [VStr "B"; VStr "X"; VStr "Y"]
        ∧ refs w' !! 1%nat = Some [VStr "A"; VStr "C"]
        ∧ (1 = 1 →
           [VStr "B"; VStr "X"; VStr "Y"] ++ [VStr "A"; VStr "C"]
           ≡ₚ [VStr "X"; VStr "Y"] ++ [VStr "A"; VStr "B"; VStr "C"])
        ∧ (1 ≠ 1 → VStr "B" ∈ [VStr "A"; VStr "C"]).
Proof.
  apply (move_between_lists (drop_in 11 1 0) two_lists 1%nat 0%nat
           [VStr "A"; VStr "B"; VStr "C"] [VStr "X"; VStr "Y"] 1 1 0
           (VStr "B"));
    try reflexivity; try discriminate; simpl; lia.
Defined.
